(** * Ripe: size arithmetic, codecs, AES-CBC and the transport envelope

    A shallow embedding of [include/Ripe.h].  The header defines four
    inline functions ([encryptAES] with a hex key, [expectedAESCipherLength],
    [maxRSABlockSize], [expectedBase64Length]); everything else is declared
    there and defined in the library's implementation file.  The inline
    functions are embedded from the header, the declared ones from the
    specification, each marked as such.

    Part 1 is the model, part 2 the lemmas, part 3 the claims of the
    specification, part 4 further properties of the inline size functions. *)

From Stdlib Require Import ZArith NArith List Bool Lia Arith.
From Stdlib Require Import Strings.Byte.
Import ListNotations.

Local Open Scope Z_scope.

(** * Part 1: the model *)

(** ** Integer types

    [std::size_t] and [unsigned int] are unsigned types whose arithmetic wraps
    modulo a power of two.  The header is built for 32-bit and 64-bit
    targets: [unsigned int] has 32 bits on both, [std::size_t] has 32 bits
    on ILP32 and 64 bits on LP64 (and on 64-bit Windows). *)

Inductive DataModel : Type := ILP32 | LP64.

Definition size_bits (dm : DataModel) : Z :=
  match dm with ILP32 => 32 | LP64 => 64 end.

Definition uint_bits (dm : DataModel) : Z := 32.

(** Conversion of a mathematical integer to an unsigned type of [bits] bits. *)
Definition wrap (bits : Z) (x : Z) : Z := x mod 2 ^ bits.

Definition to_size_t (dm : DataModel) (x : Z) : Z := wrap (size_bits dm) x.
Definition to_uint (dm : DataModel) (x : Z) : Z := wrap (uint_bits dm) x.

Definition SIZE_MAX (dm : DataModel) : Z := 2 ^ size_bits dm - 1.

(** ** Class constants

    The header declares the four constants and leaves their values to the
    implementation file. *)

(** Modelled from the spec: the value of [DATA_DELIMITER].  The envelope is
    "colon-delimited". *)
Definition DATA_DELIMITER : byte := x3a.

(** Modelled from the spec: the value of [BITS_PER_BYTE], which the header
    documents as "Constant value for bits per bytes (8)". *)
Definition BITS_PER_BYTE : Z := 8.

(** Modelled from the spec: the value of [DEFAULT_RSA_LENGTH], "default 2048
    when unspecified". *)
Definition DEFAULT_RSA_LENGTH : Z := 2048.

(** Modelled from the spec: the value of [AES_BSIZE], "exactly 16 bytes (AES
    block size)". *)
Definition AES_BSIZE : Z := 16.

(** ** Inline size functions of the header *)

(** [return (plainDataSize / AES_BSIZE + 1) * AES_BSIZE;]  The [int]
    constant is converted to [std::size_t], so every operation is unsigned. *)
Definition expectedAESCipherLength (dm : DataModel) (plainDataSize : Z) : Z :=
  to_size_t dm (to_size_t dm (plainDataSize / to_size_t dm AES_BSIZE + 1)
                * to_size_t dm AES_BSIZE).

(** [return ((keySize - 384) / 8) + 7;]  The expression has type
    [std::size_t]; the function returns [unsigned int]. *)
Definition maxRSABlockSize (dm : DataModel) (keySize : Z) : Z :=
  to_uint dm (to_size_t dm (to_size_t dm (keySize - 384) / 8 + 7)).

(** [return ((4 * n / 3) + 3) & ~0x03;]  [~0x03] is the [int] -4, converted
    to [std::size_t] for the conjunction. *)
Definition expectedBase64Length (dm : DataModel) (n : Z) : Z :=
  Z.land (to_size_t dm (to_size_t dm (4 * n) / 3 + 3))
         (to_size_t dm (Z.lnot 3)).

(** ** Errors

    The failure kinds of the specification's error taxonomy.  A call either
    returns a value or fails with one of them. *)

Inductive Error : Type :=
| InvalidKeySize | InvalidIVSize | InvalidEncoding | DecryptionError
| KeyGenerationError | InvalidKey | WrongPassphrase | IOError | ParseError.

Inductive Result (A : Type) : Type :=
| Ok (a : A)
| Err (e : Error).

Arguments Ok {A} a.
Arguments Err {A} e.

Definition bind {A B : Type} (r : Result A) (k : A -> Result B) : Result B :=
  match r with
  | Ok a => k a
  | Err e => Err e
  end.

Notation "x <- r ;; k" := (bind r (fun x => k))
  (at level 61, r at next level, right associativity).

Definition of_option {A : Type} (e : Error) (o : option A) : Result A :=
  match o with
  | Some a => Ok a
  | None => Err e
  end.

(** ** Byte strings and C strings

    A [std::string] or a [std::vector<byte>] is a list of bytes.  A
    [const char*] or [const byte*] argument is the sequence of bytes found
    at the address. *)

Definition bytes : Type := list byte.
Definition cptr : Type := list byte.

Definition is_nul (b : byte) : bool := Byte.eqb b x00.

(** [std::string::c_str]: the characters followed by the terminating zero. *)
Definition c_str (s : bytes) : cptr := s ++ [x00].

(** What a callee that is given only the address can read as the string:
    the bytes before the first zero byte ([strlen] of them). *)
Fixpoint c_string (p : cptr) : bytes :=
  match p with
  | [] => []
  | b :: p' => if is_nul b then [] else b :: c_string p'
  end.

(** The length of the C string at an address, as [strlen] gives it. *)
Definition strlen (p : cptr) : nat := length (c_string p).

Definition nul_free (s : bytes) : Prop := Forall (fun b => b <> x00) s.

Definition nul_freeb (s : bytes) : bool := forallb (fun b => negb (is_nul b)) s.

Definition byte_of_nat (n : nat) : byte :=
  match Byte.of_nat n with
  | Some b => b
  | None => x00
  end.

(** Splitting into consecutive pieces of [n] elements (the last one may be
    shorter). *)
Fixpoint chunks_fuel {A : Type} (fuel n : nat) (l : list A) : list (list A) :=
  match fuel with
  | O => []
  | S fuel' =>
      match l with
      | [] => []
      | _ => firstn n l :: chunks_fuel fuel' n (skipn n l)
      end
  end.

Definition chunks {A : Type} (n : nat) (l : list A) : list (list A) :=
  chunks_fuel (length l) n l.

(** ** GF(2^8) and the AES block cipher

    The specification names the cipher (AES with keys of 16, 24 or 32 bytes
    and blocks of 16 bytes); the header only declares the functions that use
    it.  The block cipher below is AES as its standard defines it: the field
    GF(2^8) modulo x^8 + x^4 + x^3 + x + 1, the S-box as inversion followed by
    the affine map, ShiftRows, MixColumns and the key expansion. *)

(** Exclusive or of two bytes, bit by bit. *)
Definition bxor (a b : byte) : byte :=
  let '(a0, (a1, (a2, (a3, (a4, (a5, (a6, a7))))))) := to_bits a in
  let '(b0, (b1, (b2, (b3, (b4, (b5, (b6, b7))))))) := to_bits b in
  of_bits (xorb a0 b0, (xorb a1 b1, (xorb a2 b2, (xorb a3 b3,
          (xorb a4 b4, (xorb a5 b5, (xorb a6 b6, xorb a7 b7))))))).

(** Multiplication by x: shift left and reduce by 0x1b. *)
Definition xtime (a : byte) : byte :=
  let '(a0, (a1, (a2, (a3, (a4, (a5, (a6, a7))))))) := to_bits a in
  of_bits (a7, (xorb a0 a7, (a1, (xorb a2 a7, (xorb a3 a7, (a4, (a5, a6))))))).

Definition bit_list (a : byte) : list bool :=
  let '(a0, (a1, (a2, (a3, (a4, (a5, (a6, a7))))))) := to_bits a in
  [a0; a1; a2; a3; a4; a5; a6; a7].

Fixpoint gmul_bits (a : byte) (bs : list bool) : byte :=
  match bs with
  | [] => x00
  | b :: bs' => bxor (if b then a else x00) (gmul_bits (xtime a) bs')
  end.

Definition gmul (a b : byte) : byte := gmul_bits a (bit_list b).

(** The inverse in GF(2^8) is the 254th power (0 is sent to 0). *)
Definition gf_inv (a : byte) : byte :=
  let a2 := gmul a a in
  let a4 := gmul a2 a2 in
  let a8 := gmul a4 a4 in
  let a16 := gmul a8 a8 in
  let a32 := gmul a16 a16 in
  let a64 := gmul a32 a32 in
  let a128 := gmul a64 a64 in
  gmul a2 (gmul a4 (gmul a8 (gmul a16 (gmul a32 (gmul a64 a128))))).

Definition rotl1 (a : byte) : byte :=
  let '(a0, (a1, (a2, (a3, (a4, (a5, (a6, a7))))))) := to_bits a in
  of_bits (a7, (a0, (a1, (a2, (a3, (a4, (a5, a6))))))).

Definition rotl (k : nat) (a : byte) : byte := Nat.iter k rotl1 a.

Definition sbox (a : byte) : byte :=
  let b := gf_inv a in
  bxor b (bxor (rotl 1 b) (bxor (rotl 2 b) (bxor (rotl 3 b)
       (bxor (rotl 4 b) x63)))).

Definition inv_sbox (a : byte) : byte :=
  gf_inv (bxor (rotl 1 a) (bxor (rotl 3 a) (bxor (rotl 6 a) x05))).

(** Exclusive or of a block with a key or a chaining value; the result has
    the length of the first argument. *)
Fixpoint xor_bytes (s k : bytes) : bytes :=
  match s, k with
  | a :: s', b :: k' => bxor a b :: xor_bytes s' k'
  | _, _ => s
  end.

Definition sub_bytes (st : bytes) : bytes := map sbox st.
Definition inv_sub_bytes (st : bytes) : bytes := map inv_sbox st.

(** The state is stored column by column: byte [r + 4c] is row [r] of
    column [c].  Row [r] is rotated left by [r] columns. *)
Definition shift_rows (st : bytes) : bytes :=
  match st with
  | [s0; s1; s2; s3; s4; s5; s6; s7; s8; s9; s10; s11; s12; s13; s14; s15] =>
      [s0; s5; s10; s15; s4; s9; s14; s3; s8; s13; s2; s7; s12; s1; s6; s11]
  | _ => st
  end.

Definition inv_shift_rows (st : bytes) : bytes :=
  match st with
  | [s0; s1; s2; s3; s4; s5; s6; s7; s8; s9; s10; s11; s12; s13; s14; s15] =>
      [s0; s13; s10; s7; s4; s1; s14; s11; s8; s5; s2; s15; s12; s9; s6; s3]
  | _ => st
  end.

Definition mul2 (a : byte) : byte := xtime a.
Definition mul3 (a : byte) : byte := bxor (xtime a) a.
Definition mul9 (a : byte) : byte := gmul a x09.
Definition mul11 (a : byte) : byte := gmul a x0b.
Definition mul13 (a : byte) : byte := gmul a x0d.
Definition mul14 (a : byte) : byte := gmul a x0e.

Definition mix_column (a b c d : byte) : bytes :=
  [ bxor (mul2 a) (bxor (mul3 b) (bxor c d));
    bxor a (bxor (mul2 b) (bxor (mul3 c) d));
    bxor a (bxor b (bxor (mul2 c) (mul3 d)));
    bxor (mul3 a) (bxor b (bxor c (mul2 d))) ].

Definition inv_mix_column (a b c d : byte) : bytes :=
  [ bxor (mul14 a) (bxor (mul11 b) (bxor (mul13 c) (mul9 d)));
    bxor (mul9 a) (bxor (mul14 b) (bxor (mul11 c) (mul13 d)));
    bxor (mul13 a) (bxor (mul9 b) (bxor (mul14 c) (mul11 d)));
    bxor (mul11 a) (bxor (mul13 b) (bxor (mul9 c) (mul14 d))) ].

Fixpoint mix_columns (st : bytes) : bytes :=
  match st with
  | a :: b :: c :: d :: rest => mix_column a b c d ++ mix_columns rest
  | _ => st
  end.

Fixpoint inv_mix_columns (st : bytes) : bytes :=
  match st with
  | a :: b :: c :: d :: rest => inv_mix_column a b c d ++ inv_mix_columns rest
  | _ => st
  end.

Definition add_round_key (st k : bytes) : bytes := xor_bytes st k.

Definition full_round (k st : bytes) : bytes :=
  add_round_key (mix_columns (shift_rows (sub_bytes st))) k.

Definition final_round (k st : bytes) : bytes :=
  add_round_key (shift_rows (sub_bytes st)) k.

Definition inv_full_round (k st : bytes) : bytes :=
  inv_sub_bytes (inv_shift_rows (inv_mix_columns (add_round_key st k))).

Definition inv_final_round (k st : bytes) : bytes :=
  inv_sub_bytes (inv_shift_rows (add_round_key st k)).

(** The rounds after the initial key addition: every round key but the last
    drives a full round, the last one the final round without MixColumns. *)
Fixpoint rounds (rks : list bytes) (st : bytes) : bytes :=
  match rks with
  | [] => st
  | k :: rest =>
      match rest with
      | [] => final_round k st
      | _ => rounds rest (full_round k st)
      end
  end.

Fixpoint inv_rounds (rks : list bytes) (st : bytes) : bytes :=
  match rks with
  | [] => st
  | k :: rest =>
      match rest with
      | [] => inv_final_round k st
      | _ => inv_full_round k (inv_rounds rest st)
      end
  end.

Definition cipher (rks : list bytes) (st : bytes) : bytes :=
  match rks with
  | [] => st
  | k0 :: rest => rounds rest (add_round_key st k0)
  end.

Definition inv_cipher (rks : list bytes) (st : bytes) : bytes :=
  match rks with
  | [] => st
  | k0 :: rest => add_round_key (inv_rounds rest st) k0
  end.

(** Key expansion.  Words are lists of four bytes; [Nk] is the number of key
    words and word [i >= Nk] is derived from words [i - 1] and [i - Nk]. *)
Definition rot_word (w : bytes) : bytes :=
  match w with
  | [] => []
  | a :: r => r ++ [a]
  end.

Definition sub_word (w : bytes) : bytes := map sbox w.

Definition rcon (i : nat) : bytes := [Nat.iter (i - 1) xtime x01; x00; x00; x00].

Fixpoint expand_words (fuel Nk i : nat) (w : list bytes) : list bytes :=
  match fuel with
  | O => w
  | S fuel' =>
      let temp := nth (i - 1) w [] in
      let temp' :=
        if (i mod Nk =? 0)%nat then xor_bytes (sub_word (rot_word temp)) (rcon (i / Nk))
        else if ((6 <? Nk) && (i mod Nk =? 4))%nat then sub_word temp
        else temp in
      expand_words fuel' Nk (S i) (w ++ [xor_bytes (nth (i - Nk) w []) temp'])
  end.

Definition key_expansion (key : bytes) : list bytes :=
  let Nk := (length key / 4)%nat in
  let Nr := (Nk + 6)%nat in
  expand_words (4 * (Nr + 1) - Nk) Nk Nk (chunks 4 key).

Definition round_keys (key : bytes) : list bytes :=
  map (@concat byte) (chunks 4 (key_expansion key)).

(** Modelled from the spec: the block cipher behind [encryptAES] and
    [decryptAES], "AES-128/192/256" on blocks of 16 bytes.  The round keys are
    derived once per key. *)
Definition aes_encrypt_block (key : bytes) : bytes -> bytes :=
  cipher (round_keys key).

Definition aes_decrypt_block (key : bytes) : bytes -> bytes :=
  inv_cipher (round_keys key).

(** ** Block padding and CBC chaining *)

Definition pad_length (n : nat) : nat := (16 - n mod 16)%nat.

(** Modelled from the spec: the padding of [encryptAES].  "Padding always
    appends a full extra block even when input is already block-aligned
    (standard block-cipher padding scheme, padding content encodes the pad
    length for unambiguous removal on decrypt)." *)
Definition pkcs7_pad (data : bytes) : bytes :=
  let p := pad_length (length data) in
  data ++ repeat (byte_of_nat p) p.

(** Modelled from the spec: the padding check of [decryptAES], which
    "validates and strips padding" and fails "if padding bytes are
    inconsistent". *)
Definition pkcs7_unpad (data : bytes) : option bytes :=
  let b := last data x00 in
  let p := Byte.to_nat b in
  let n := length data in
  if ((1 <=? p) && (p <=? 16) && (p <=? n)
      && forallb (Byte.eqb b) (skipn (n - p) data))%nat
  then Some (firstn (n - p) data)
  else None.

(** CBC over a block cipher [E]: every plaintext block is combined with the
    previous ciphertext block (the IV for the first one) before it is
    enciphered. *)
Fixpoint cbc_encrypt (E : bytes -> bytes) (prev : bytes) (blocks : list bytes)
  : list bytes :=
  match blocks with
  | [] => []
  | b :: bs =>
      let c := E (xor_bytes b prev) in
      c :: cbc_encrypt E c bs
  end.

Fixpoint cbc_decrypt (D : bytes -> bytes) (prev : bytes) (blocks : list bytes)
  : list bytes :=
  match blocks with
  | [] => []
  | c :: cs => xor_bytes (D c) prev :: cbc_decrypt D c cs
  end.

(** Modelled from the spec: the cipher of [encryptAES], "CBC-mode block
    encryption" of the padded plaintext. *)
Definition aes_cbc_encrypt (key iv plain : bytes) : bytes :=
  concat (cbc_encrypt (aes_encrypt_block key) iv (chunks 16 (pkcs7_pad plain))).

(** Modelled from the spec: the cipher of [decryptAES].  The ciphertext must
    be a positive number of whole blocks. *)
Definition aes_cbc_decrypt (key iv cipherText : bytes) : option bytes :=
  if ((length cipherText =? 0) || negb (length cipherText mod 16 =? 0))%nat
  then None
  else pkcs7_unpad
         (concat (cbc_decrypt (aes_decrypt_block key) iv (chunks 16 cipherText))).

(** ** The process-wide random source

    The only state the library shares between calls.  It is modelled as a
    supply of bytes and a position; drawing [n] bytes advances the position. *)

Record RandomPool : Type := {
  pool_source : nat -> byte;
  pool_next : nat
}.

Definition generateBlock (n : nat) (rng : RandomPool) : bytes * RandomPool :=
  (map (pool_source rng) (seq (pool_next rng) n),
   {| pool_source := pool_source rng; pool_next := (pool_next rng + n)%nat |}).

(** ** AES primitives (header lines 82 and 87) *)

Definition valid_key_size (n : nat) : bool :=
  ((n =? 16) || (n =? 24) || (n =? 32))%nat.

(** Modelled from the spec: the body of
    [encryptAES(const char* data, const byte* key, std::size_t keySize,
    std::vector<byte>& iv)] is not in the header.  The plaintext is the C
    string at [data] (the parameter carries no length), the key is the
    [keySize] bytes at [key], an empty [iv] is replaced by 16 random bytes and
    handed back to the caller.  Reading [keySize] bytes from a shorter key
    buffer is undefined in C++; the model reports [InvalidKeySize]. *)
Definition encryptAES (rng : RandomPool) (data : cptr) (key : cptr)
    (keySize : nat) (iv : bytes) : Result (bytes * bytes * RandomPool) :=
  if negb (valid_key_size keySize && (keySize <=? length key)%nat)
  then Err InvalidKeySize
  else
    let keyBlock := firstn keySize key in
    let '(ivArr, rng') :=
      match iv with
      | [] => generateBlock 16 rng
      | _ => (iv, rng)
      end in
    if negb (length ivArr =? 16)%nat then Err InvalidIVSize
    else
      Ok (aes_cbc_encrypt keyBlock ivArr (c_string data), ivArr, rng').

(** Modelled from the spec: the body of
    [decryptAES(const std::string& data, const byte* key, std::size_t
    keySize, std::vector<byte>& iv)] is not in the header.  It reverses the
    encryption and fails with [DecryptionError] on a ciphertext that is not a
    positive number of blocks or whose padding is inconsistent. *)
Definition decryptAES (data : bytes) (key : cptr) (keySize : nat) (iv : bytes)
  : Result bytes :=
  if negb (valid_key_size keySize && (keySize <=? length key)%nat)
  then Err InvalidKeySize
  else if negb (length iv =? 16)%nat then Err InvalidIVSize
  else
    let keyBlock := firstn keySize key in
    of_option DecryptionError (aes_cbc_decrypt keyBlock iv data).

(** ** Hexadecimal codec *)

Definition hex_digit (n : nat) : byte :=
  nth n [x30; x31; x32; x33; x34; x35; x36; x37; x38; x39;
         x61; x62; x63; x64; x65; x66] x30.

Definition hex_value (c : byte) : option nat :=
  match c with
  | x30 => Some 0 | x31 => Some 1 | x32 => Some 2 | x33 => Some 3
  | x34 => Some 4 | x35 => Some 5 | x36 => Some 6 | x37 => Some 7
  | x38 => Some 8 | x39 => Some 9
  | x61 | x41 => Some 10 | x62 | x42 => Some 11 | x63 | x43 => Some 12
  | x64 | x44 => Some 13 | x65 | x45 => Some 14 | x66 | x46 => Some 15
  | _ => None
  end%nat.

(** Modelled from the spec: [stringToHex] is declared in the header only.
    "Two hex characters per byte, lowercase canonical"; the header's example
    is "khn = 6b686e". *)
Definition stringToHex (raw : bytes) : bytes :=
  flat_map (fun b => [hex_digit (Byte.to_nat b / 16);
                      hex_digit (Byte.to_nat b mod 16)]) raw.

Fixpoint hex_decode (hex : bytes) : option bytes :=
  match hex with
  | [] => Some []
  | [_] => None
  | h :: l :: rest =>
      match hex_value h, hex_value l, hex_decode rest with
      | Some a, Some b, Some r => Some (byte_of_nat (16 * a + b) :: r)
      | _, _, _ => None
      end
  end.

(** Modelled from the spec: [hexToString] is declared in the header only.
    "Decode fails with InvalidEncoding on odd length or non-hex characters." *)
Definition hexToString (hex : bytes) : Result bytes :=
  of_option InvalidEncoding (hex_decode hex).

(** ** Base64 codec *)

Definition base64_alphabet : bytes :=
  [x41; x42; x43; x44; x45; x46; x47; x48; x49; x4a; x4b; x4c; x4d;
   x4e; x4f; x50; x51; x52; x53; x54; x55; x56; x57; x58; x59; x5a;
   x61; x62; x63; x64; x65; x66; x67; x68; x69; x6a; x6b; x6c; x6d;
   x6e; x6f; x70; x71; x72; x73; x74; x75; x76; x77; x78; x79; x7a;
   x30; x31; x32; x33; x34; x35; x36; x37; x38; x39; x2b; x2f].

Definition base64_pad : byte := x3d.

Definition base64_char (n : N) : byte := nth (N.to_nat n) base64_alphabet x41.

Fixpoint index_of (c : byte) (l : bytes) : option nat :=
  match l with
  | [] => None
  | x :: l' => if Byte.eqb c x then Some O else option_map S (index_of c l')
  end.

Definition base64_value (c : byte) : option N :=
  option_map N.of_nat (index_of c base64_alphabet).

Definition byte_of_N (n : N) : byte :=
  match Byte.of_N n with
  | Some b => b
  | None => x00
  end.

(** The four sextets of a 24-bit group. *)
Definition sextets (n : N) : bytes :=
  [base64_char (n / 262144); base64_char (n / 4096 mod 64);
   base64_char (n / 64 mod 64); base64_char (n mod 64)]%N.

(** Modelled from the spec: [base64Encode] is declared in the header only.
    "Standard reversible conversion", with the standard alphabet: three bytes
    become four characters, and a last group of one or two bytes is padded
    with '='. *)
Fixpoint base64Encode (binaryData : bytes) : bytes :=
  match binaryData with
  | [] => []
  | [a] =>
      let n := (Byte.to_N a * 65536)%N in
      firstn 2 (sextets n) ++ [base64_pad; base64_pad]
  | [a; b] =>
      let n := (Byte.to_N a * 65536 + Byte.to_N b * 256)%N in
      firstn 3 (sextets n) ++ [base64_pad]
  | a :: b :: c :: rest =>
      let n := (Byte.to_N a * 65536 + Byte.to_N b * 256 + Byte.to_N c)%N in
      sextets n ++ base64Encode rest
  end.

Definition group_value (v1 v2 v3 v4 : N) : N :=
  (v1 * 262144 + v2 * 4096 + v3 * 64 + v4)%N.

Definition group_bytes (n : N) : bytes :=
  [byte_of_N (n / 65536); byte_of_N (n / 256 mod 256);
   byte_of_N (n mod 256)]%N.

(** The last group of four characters carries one, two or three bytes. *)
Definition base64_decode_last (c1 c2 c3 c4 : byte) : option bytes :=
  match base64_value c1, base64_value c2 with
  | Some v1, Some v2 =>
      if Byte.eqb c4 base64_pad then
        if Byte.eqb c3 base64_pad
        then Some (firstn 1 (group_bytes (group_value v1 v2 0 0)))
        else match base64_value c3 with
             | Some v3 => Some (firstn 2 (group_bytes (group_value v1 v2 v3 0)))
             | None => None
             end
      else match base64_value c3, base64_value c4 with
           | Some v3, Some v4 => Some (group_bytes (group_value v1 v2 v3 v4))
           | _, _ => None
           end
  | _, _ => None
  end.

Fixpoint base64_decode (s : bytes) : option bytes :=
  match s with
  | [] => Some []
  | c1 :: c2 :: c3 :: c4 :: rest =>
      match rest with
      | [] => base64_decode_last c1 c2 c3 c4
      | _ =>
          match base64_value c1, base64_value c2, base64_value c3,
                base64_value c4, base64_decode rest with
          | Some v1, Some v2, Some v3, Some v4, Some r =>
              Some (group_bytes (group_value v1 v2 v3 v4) ++ r)
          | _, _, _, _, _ => None
          end
      end
  | _ => None
  end.

(** Modelled from the spec: [base64Decode] is declared in the header only.
    "Decode fails with InvalidEncoding on malformed input (bad padding,
    invalid alphabet)." *)
Definition base64Decode (base64Encoded : bytes) : Result bytes :=
  of_option InvalidEncoding (base64_decode base64Encoded).

(** ** Decimal numbers in the envelope *)

Definition dec_digit (n : Z) : byte := byte_of_nat (48 + Z.to_nat n).

Fixpoint to_decimal_fuel (fuel : nat) (n : Z) (acc : bytes) : bytes :=
  match fuel with
  | O => acc
  | S fuel' =>
      if n <? 10 then dec_digit n :: acc
      else to_decimal_fuel fuel' (n / 10) (dec_digit (n mod 10) :: acc)
  end.

(** The decimal text of a non-negative number, as a stream inserter writes
    it. *)
Definition to_decimal (n : Z) : bytes :=
  to_decimal_fuel (S (Z.to_nat (Z.log2 n))) n [].

Fixpoint decimal_digits_fuel (fuel : nat) (n : Z) : Z :=
  match fuel with
  | O => 0
  | S fuel' => if n <? 10 then 1 else 1 + decimal_digits_fuel fuel' (n / 10)
  end.

(** The number of decimal digits of a non-negative number. *)
Definition decimal_digits (n : Z) : Z :=
  decimal_digits_fuel (S (Z.to_nat (Z.log2 n))) n.

Definition dec_value (c : byte) : option Z :=
  let v := Byte.to_nat c in
  if ((48 <=? v) && (v <=? 57))%nat then Some (Z.of_nat v - 48) else None.

Fixpoint parse_decimal_from (acc : Z) (s : bytes) : option Z :=
  match s with
  | [] => Some acc
  | c :: s' =>
      match dec_value c with
      | Some d => parse_decimal_from (10 * acc + d) s'
      | None => None
      end
  end.

Definition parse_decimal (s : bytes) : option Z :=
  match s with
  | [] => None
  | _ => parse_decimal_from 0 s
  end.

(** ** The hex-key overload of [encryptAES] (header lines 123-126)

    [return encryptAES(buffer.c_str(), reinterpret_cast<const byte*>(
    hexToString(hexKey).c_str()), hexKey.size() / 2, iv);]  A failure of
    [hexToString] propagates to the caller. *)
Definition encryptAES_hexKey (rng : RandomPool) (buffer : bytes)
    (hexKey : bytes) (iv : bytes) : Result (bytes * bytes * RandomPool) :=
  key <- hexToString hexKey ;;
  encryptAES rng (c_str buffer) (c_str key) (length hexKey / 2)%nat iv.

(** ** The transport envelope *)

(** The envelope text <cipherLength>:<ivHex>:[<clientId>:]<base64Payload>:
    "cipherLength is the decimal byte length of the ciphertext before
    encoding"; the client id and its delimiter are left out when the id is
    empty. *)
Definition envelope_text (cipherText iv client : bytes) : bytes :=
  to_decimal (Z.of_nat (length cipherText)) ++ [DATA_DELIMITER]
  ++ stringToHex iv ++ [DATA_DELIMITER]
  ++ (match client with [] => [] | _ => client ++ [DATA_DELIMITER] end)
  ++ base64Encode cipherText.

(** Modelled from the spec: [prepareData] is declared in the header only.
    It "generates a fresh random IV, AES-encrypts data under the key decoded
    from hexKey, base64-encodes the ciphertext, and emits
    <cipherLength>:<ivHex>:[<clientId>:]<base64Payload>"; a non-empty
    [clientId] "is inserted as its own colon-delimited field immediately
    before the payload".  Both [data] and [clientId] are [const char*]. *)
Definition prepareData (rng : RandomPool) (data : cptr) (hexKey : bytes)
    (clientId : cptr) : Result (bytes * RandomPool) :=
  key <- hexToString hexKey ;;
  r <- encryptAES rng data (c_str key) (length hexKey / 2)%nat [] ;;
  let '(cipherText, iv, rng') := r in
  Ok (envelope_text cipherText iv (c_string clientId), rng').

(** Modelled from the spec: [expectedDataSize] is declared in the header
    only.  It "predicts total envelope length (digits of cipherLength + 1 +
    32 hex IV chars + 1 + optional (clientIdSize+1) +
    base64(expectedAESCipherLength(plainSize)) length)", computed in
    [std::size_t]. *)
Definition expectedDataSize (dm : DataModel) (plainDataSize clientIdSize : Z)
  : Z :=
  let cipherLength := expectedAESCipherLength dm plainDataSize in
  to_size_t dm
    (decimal_digits cipherLength + 1 + 32 + 1
     + (if 0 <? clientIdSize then clientIdSize + 1 else 0)
     + expectedBase64Length dm cipherLength).

(** Modelled from the spec: the field parser of the decryption counterpart.
    "Field parsing follows a small linear state machine: ExpectLength ->
    ExpectIV -> (ExpectClientIdOrPayload) -> ExpectPayload -> Done,
    transitioning on each colon; malformed structure (wrong field count,
    non-numeric length, length mismatch against decoded payload) yields
    ParseError." *)
Inductive ParseState : Type :=
| ExpectLength | ExpectIV | ExpectClientIdOrPayload | ExpectPayload | Done.

Record Parser : Type := {
  p_state : ParseState;
  p_length : bytes;
  p_iv : bytes;
  p_third : bytes;
  p_fourth : bytes
}.

Definition parser_start : Parser :=
  {| p_state := ExpectLength; p_length := []; p_iv := []; p_third := [];
     p_fourth := [] |}.

Definition parse_step (r : Result Parser) (c : byte) : Result Parser :=
  p <- r ;;
  if Byte.eqb c DATA_DELIMITER then
    match p_state p with
    | ExpectLength =>
        Ok {| p_state := ExpectIV; p_length := p_length p; p_iv := p_iv p;
              p_third := p_third p; p_fourth := p_fourth p |}
    | ExpectIV =>
        Ok {| p_state := ExpectClientIdOrPayload; p_length := p_length p;
              p_iv := p_iv p; p_third := p_third p; p_fourth := p_fourth p |}
    | ExpectClientIdOrPayload =>
        Ok {| p_state := ExpectPayload; p_length := p_length p; p_iv := p_iv p;
              p_third := p_third p; p_fourth := p_fourth p |}
    | ExpectPayload | Done => Err ParseError
    end
  else
    match p_state p with
    | ExpectLength =>
        Ok {| p_state := ExpectLength; p_length := p_length p ++ [c];
              p_iv := p_iv p; p_third := p_third p; p_fourth := p_fourth p |}
    | ExpectIV =>
        Ok {| p_state := ExpectIV; p_length := p_length p; p_iv := p_iv p ++ [c];
              p_third := p_third p; p_fourth := p_fourth p |}
    | ExpectClientIdOrPayload =>
        Ok {| p_state := ExpectClientIdOrPayload; p_length := p_length p;
              p_iv := p_iv p; p_third := p_third p ++ [c];
              p_fourth := p_fourth p |}
    | ExpectPayload =>
        Ok {| p_state := ExpectPayload; p_length := p_length p; p_iv := p_iv p;
              p_third := p_third p; p_fourth := p_fourth p ++ [c] |}
    | Done => Err ParseError
    end.

Record Envelope : Type := {
  env_cipherLength : Z;
  env_ivHex : bytes;
  env_clientId : bytes;
  env_payload : bytes
}.

(** End of input: three fields carry no client id, four fields carry one. *)
Definition parse_finish (r : Result Parser) : Result Envelope :=
  p <- r ;;
  n <- of_option ParseError (parse_decimal (p_length p)) ;;
  match p_state p with
  | ExpectClientIdOrPayload =>
      Ok {| env_cipherLength := n; env_ivHex := p_iv p; env_clientId := [];
            env_payload := p_third p |}
  | ExpectPayload =>
      Ok {| env_cipherLength := n; env_ivHex := p_iv p;
            env_clientId := p_third p; env_payload := p_fourth p |}
  | _ => Err ParseError
  end.

Definition parse_envelope (text : bytes) : Result Envelope :=
  parse_finish (fold_left parse_step text (Ok parser_start)).

(** "If true, first base64 decoding is done on data and then decryption is
    processed"; "if base64 is true, base64 decoding is done before hex
    decoding" (header lines 130-131). *)
Definition decode_payload (isBase64 isHex : bool) (payload : bytes)
  : Result bytes :=
  d <- (if isBase64 then base64Decode payload else Ok payload) ;;
  if isHex then hexToString d else Ok d.

(** Modelled from the spec: the body of [decryptAES(std::string& data, const
    std::string& hexKey, std::string& iv, bool isBase64, bool isHex)] is not
    in the header.  It "accepts an envelope (or a raw ciphertext plus
    separately supplied IV), optional base64 decoding and optional hex
    decoding flags, and returns the original plaintext".  With an empty [iv]
    the data is an envelope whose IV field is used. *)
Definition decryptAES_hexKey (data : bytes) (hexKey : bytes) (iv : bytes)
    (isBase64 isHex : bool) : Result bytes :=
  key <- hexToString hexKey ;;
  match iv with
  | [] =>
      env <- parse_envelope data ;;
      ivec <- hexToString (env_ivHex env) ;;
      cipherText <- decode_payload isBase64 isHex (env_payload env) ;;
      if negb (Z.of_nat (length cipherText) =? env_cipherLength env)
      then Err ParseError
      else decryptAES cipherText (c_str key) (length hexKey / 2)%nat ivec
  | _ =>
      ivec <- hexToString iv ;;
      cipherText <- decode_payload isBase64 isHex data ;;
      decryptAES cipherText (c_str key) (length hexKey / 2)%nat ivec
  end.

(** ** RSA block splitting *)

(** Modelled from the spec: the chunking helper of [encryptRSA] is not in
    the header.  "If len(data) > maxRSABlockSize(keyBits), the chunking
    helper splits data into an ordered sequence of blocks each <=
    maxRSABlockSize(keyBits)"; shorter data is a single block. *)
Definition rsa_blocks (dm : DataModel) (keyBits : Z) (data : bytes)
  : list bytes :=
  let maxBlock := Z.to_nat (maxRSABlockSize dm keyBits) in
  if (length data <=? maxBlock)%nat then [data] else chunks maxBlock data.

(** ** The concrete scenario of the specification

    "key = 16 zero bytes (hex "00" x 16), IV = 16 zero bytes, data = "hello"
    (5 bytes)", with a random source that returns zero bytes. *)

Definition zero_pool : RandomPool :=
  {| pool_source := fun _ => x00; pool_next := 0 |}.

Definition zero_key : bytes := repeat x00 16.
Definition zero_iv : bytes := repeat x00 16.
Definition zero_hex_key : bytes := repeat x30 32.
Definition hello : bytes := [x68; x65; x6c; x6c; x6f].
Definition client1 : bytes := [x63; x6c; x69; x65; x6e; x74; x31].

(** ** Vocabulary of the proofs *)

(** Every byte, for proofs by enumeration. *)
Definition all_bytes : bytes := map byte_of_nat (seq 0 256).

(** [f] distributes over exclusive or. *)
Definition additive (f : byte -> byte) : Prop :=
  forall a b, f (bxor a b) = bxor (f a) (f b).

(** Four bytes combined, and a row of a column transformation with one
    coefficient per input byte. *)
Definition quad (a b c d : byte) : byte := bxor a (bxor b (bxor c d)).

Definition row (f g h k : byte -> byte) (a b c d : byte) : byte :=
  quad (f a) (g b) (h c) (k d).

Definition keep (a : byte) : byte := a.

Definition not_delimiter (c : byte) : Prop := c <> DATA_DELIMITER.

(** The parser after reading [s], a text without delimiter, in state [p]. *)
Definition append_field (p : Parser) (s : bytes) : Parser :=
  match p_state p with
  | ExpectLength =>
      {| p_state := ExpectLength; p_length := p_length p ++ s; p_iv := p_iv p;
         p_third := p_third p; p_fourth := p_fourth p |}
  | ExpectIV =>
      {| p_state := ExpectIV; p_length := p_length p; p_iv := p_iv p ++ s;
         p_third := p_third p; p_fourth := p_fourth p |}
  | ExpectClientIdOrPayload =>
      {| p_state := ExpectClientIdOrPayload; p_length := p_length p;
         p_iv := p_iv p; p_third := p_third p ++ s; p_fourth := p_fourth p |}
  | ExpectPayload =>
      {| p_state := ExpectPayload; p_length := p_length p; p_iv := p_iv p;
         p_third := p_third p; p_fourth := p_fourth p ++ s |}
  | Done => p
  end.

Ltac norm_pow2 :=
  cbn [size_bits uint_bits] in *;
  change (2 ^ 32) with 4294967296 in *;
  change (2 ^ 64) with 18446744073709551616 in *;
  change (2 ^ (32 - 3)) with 536870912 in *;
  change (2 ^ (64 - 3)) with 2305843009213693952 in *;
  change (2 ^ 29) with 536870912 in *.

Ltac nlia := zify; Z.to_euclidean_division_equations; lia.

(** Goals of unsigned arithmetic at a fixed width of [std::size_t]. *)
Ltac size_arith :=
  unfold expectedAESCipherLength, maxRSABlockSize, AES_BSIZE,
    to_size_t, to_uint, wrap, SIZE_MAX in *;
  norm_pow2; Z.div_mod_to_equations; lia.

(** * Part 2: lemmas

    What the claims rest on: unsigned arithmetic without overflow, C strings,
    the inverse of the AES block cipher, CBC and padding, and the codecs of
    the envelope. *)

(** ** Unsigned arithmetic *)

Lemma wrap_small (bits x : Z) : 0 <= x < 2 ^ bits -> wrap bits x = x.
Proof. intros H. unfold wrap. apply Z.mod_small. exact H. Qed.

Lemma to_size_t_small (dm : DataModel) (x : Z) :
  0 <= x <= SIZE_MAX dm -> to_size_t dm x = x.
Proof.
  intros H. unfold to_size_t. apply wrap_small. unfold SIZE_MAX in H. lia.
Qed.

Lemma SIZE_MAX_lower (dm : DataModel) : 4294967295 <= SIZE_MAX dm.
Proof. destruct dm; unfold SIZE_MAX; simpl; lia. Qed.

Lemma expectedAESCipherLength_small (dm : DataModel) (n : Z) :
  0 <= n -> n + 16 <= SIZE_MAX dm ->
  expectedAESCipherLength dm n = (n / 16 + 1) * 16.
Proof.
  intros Hn Hmax. unfold expectedAESCipherLength, AES_BSIZE.
  pose proof (SIZE_MAX_lower dm) as Hl.
  rewrite (to_size_t_small dm 16) by lia.
  assert (Hq : 0 <= n / 16 <= n)
    by (split; [apply Z.div_pos | apply Z.div_le_upper_bound]; lia).
  rewrite (to_size_t_small dm (n / 16 + 1)) by lia.
  apply to_size_t_small.
  pose proof (Z.mul_div_le n 16 ltac:(lia)). lia.
Qed.

Lemma maxRSABlockSize_unfold (dm : DataModel) (k : Z) :
  maxRSABlockSize dm k
  = ((((k - 384) mod 2 ^ size_bits dm) / 8 + 7) mod 2 ^ size_bits dm) mod 2 ^ 32.
Proof. reflexivity. Qed.

Lemma maxRSABlockSize_wrapped (dm : DataModel) (k : Z) :
  0 <= k < 384 ->
  ((k - 384) mod 2 ^ size_bits dm) / 8 + 7 = 2 ^ (size_bits dm - 3) - 41 + k / 8
  /\ to_size_t dm (to_size_t dm (k - 384) / 8 + 7)
     = 2 ^ (size_bits dm - 3) - 41 + k / 8.
Proof.
  intros Hk. unfold to_size_t, wrap.
  assert (E : (k - 384) mod 2 ^ size_bits dm = k - 384 + 2 ^ size_bits dm).
  { destruct dm; norm_pow2; Z.div_mod_to_equations; lia. }
  rewrite E.
  assert (D : (k - 384 + 2 ^ size_bits dm) / 8 = k / 8 + (2 ^ (size_bits dm - 3) - 48)).
  { rewrite <- Z.div_add by lia. f_equal. destruct dm; norm_pow2; lia. }
  rewrite D.
  assert (0 <= k / 8 < 48)
    by (split; [apply Z.div_pos | apply Z.div_lt_upper_bound]; lia).
  split; [lia|].
  rewrite Z.mod_small; destruct dm; norm_pow2; lia.
Qed.

Lemma maxRSABlockSize_in_range (dm : DataModel) (keyBits : Z) :
  384 <= keyBits <= SIZE_MAX dm ->
  (keyBits - 384) / 8 + 7 < 2 ^ uint_bits dm ->
  maxRSABlockSize dm keyBits = (keyBits - 384) / 8 + 7.
Proof.
  intros Hk Hu. rewrite maxRSABlockSize_unfold. unfold uint_bits in Hu.
  unfold SIZE_MAX in Hk.
  assert (0 <= (keyBits - 384) / 8 <= keyBits - 384).
  { split; [apply Z.div_pos | apply Z.div_le_upper_bound]; lia. }
  rewrite (Z.mod_small (keyBits - 384)) by lia.
  rewrite (Z.mod_small ((keyBits - 384) / 8 + 7)) by lia.
  apply Z.mod_small. lia.
Qed.

Lemma land_clear_low2 (dm : DataModel) (x : Z) :
  0 <= x <= SIZE_MAX dm ->
  Z.land x (to_size_t dm (Z.lnot 3)) = 4 * (x / 4).
Proof.
  intros Hx. unfold to_size_t, wrap. unfold SIZE_MAX in Hx.
  assert (Hw : 2 <= size_bits dm) by (destruct dm; simpl; lia).
  rewrite <- Z.land_ones by lia.
  rewrite Z.land_assoc, (Z.land_comm x), <- Z.land_assoc.
  rewrite (Z.land_ones x) by lia. rewrite (Z.mod_small x) by lia.
  rewrite Z.land_comm. change (Z.lnot 3) with (Z.lnot (Z.ones 2)).
  rewrite <- Z.ldiff_land, Z.ldiff_ones_r by lia.
  rewrite Z.shiftl_mul_pow2, Z.shiftr_div_pow2 by lia.
  change (2 ^ 2) with 4. lia.
Qed.

Lemma expectedBase64Length_small (dm : DataModel) (n : Z) :
  0 <= n -> 4 * n <= SIZE_MAX dm ->
  expectedBase64Length dm n = 4 * ((4 * n / 3 + 3) / 4).
Proof.
  intros Hn Hmax. unfold expectedBase64Length.
  pose proof (SIZE_MAX_lower dm) as Hl.
  unfold to_size_t at 2. unfold wrap.
  rewrite (Z.mod_small (4 * n)) by (unfold SIZE_MAX in *; lia).
  assert (Hq : 0 <= 4 * n / 3 + 3 <= SIZE_MAX dm).
  { unfold SIZE_MAX in *. destruct dm; norm_pow2; Z.div_mod_to_equations; lia. }
  unfold to_size_t at 1. unfold wrap.
  rewrite (Z.mod_small (4 * n / 3 + 3)) by (unfold SIZE_MAX in *; lia).
  apply land_clear_low2. lia.
Qed.

Lemma base64_length_formula (n : Z) :
  0 <= n -> 4 * ((4 * n / 3 + 3) / 4) = 4 * ((n + 2) / 3).
Proof. intros Hn. Z.div_mod_to_equations. lia. Qed.

Lemma size_t_range (dm : DataModel) (x : Z) : 0 <= to_size_t dm x <= SIZE_MAX dm.
Proof.
  unfold to_size_t, wrap, SIZE_MAX.
  assert (0 < 2 ^ size_bits dm) by (destruct dm; reflexivity).
  pose proof (Z.mod_pos_bound x (2 ^ size_bits dm) ltac:(lia)). lia.
Qed.

Lemma expectedBase64Length_unfold (dm : DataModel) (n : Z) :
  expectedBase64Length dm n
  = 4 * (to_size_t dm (to_size_t dm (4 * n) / 3 + 3) / 4).
Proof. unfold expectedBase64Length. apply land_clear_low2, size_t_range. Qed.

(** ** C strings *)

Lemma is_nul_true (b : byte) : is_nul b = true <-> b = x00.
Proof.
  unfold is_nul. split.
  - apply Byte.byte_dec_bl.
  - apply Byte.byte_dec_lb.
Qed.

Lemma is_nul_false (b : byte) : is_nul b = false <-> b <> x00.
Proof.
  rewrite <- is_nul_true. destruct (is_nul b); split; congruence.
Qed.

Lemma c_string_nul_free (p : cptr) : nul_free (c_string p).
Proof.
  induction p as [|b p IH]; simpl.
  - constructor.
  - destruct (is_nul b) eqn:E; constructor; [apply is_nul_false|]; assumption.
Qed.

Lemma c_string_prefix (p : cptr) : exists rest, p = c_string p ++ rest.
Proof.
  induction p as [|b p [rest IH]]; simpl.
  - exists []. reflexivity.
  - destruct (is_nul b).
    + exists (b :: p). reflexivity.
    + exists rest. simpl. f_equal. exact IH.
Qed.

Lemma c_string_app_nul (s rest : bytes) :
  nul_free s -> c_string (s ++ x00 :: rest) = s.
Proof.
  induction 1 as [|b s Hb Hs IH]; simpl.
  - reflexivity.
  - apply is_nul_false in Hb. rewrite Hb, IH. reflexivity.
Qed.

Lemma c_string_c_str (s : bytes) : c_string (c_str s) = c_string s.
Proof.
  unfold c_str. induction s as [|b s IH]; simpl.
  - reflexivity.
  - destruct (is_nul b); [reflexivity | f_equal; exact IH].
Qed.

Lemma c_string_of_nul_free (s : bytes) : nul_free s -> c_string (c_str s) = s.
Proof. intros H. unfold c_str. apply c_string_app_nul. exact H. Qed.

Lemma c_string_longest (s p rest : bytes) :
  s = p ++ rest -> nul_free p -> (length p <= length (c_string s))%nat.
Proof.
  intros -> Hp. induction Hp as [|b p Hb Hp IH]; simpl.
  - lia.
  - apply is_nul_false in Hb. rewrite Hb. simpl. lia.
Qed.

Lemma nul_freeb_spec (s : bytes) : nul_freeb s = true <-> nul_free s.
Proof.
  unfold nul_freeb, nul_free. rewrite forallb_forall, Forall_forall.
  split; intros H b Hb; specialize (H b Hb).
  - apply is_nul_false. destruct (is_nul b); [discriminate | reflexivity].
  - apply is_nul_false in H. rewrite H. reflexivity.
Qed.

Lemma encryptAES_c_string (rng : RandomPool) (p q : cptr) (key : cptr)
    (keySize : nat) (iv : bytes) :
  c_string p = c_string q ->
  encryptAES rng p key keySize iv = encryptAES rng q key keySize iv.
Proof. intros E. unfold encryptAES. rewrite E. reflexivity. Qed.

(** ** Bytes: enumeration and exclusive or *)

Lemma byte_of_nat_to_nat (b : byte) : byte_of_nat (Byte.to_nat b) = b.
Proof. unfold byte_of_nat. rewrite Byte.of_to_nat. reflexivity. Qed.

Lemma all_bytes_complete (b : byte) : In b all_bytes.
Proof.
  unfold all_bytes. apply in_map_iff. exists (Byte.to_nat b). split.
  - apply byte_of_nat_to_nat.
  - apply in_seq. pose proof (Byte.to_nat_bounded b). lia.
Qed.

Lemma byte_enum1 (f g : byte -> byte) :
  forallb (fun a => Byte.eqb (f a) (g a)) all_bytes = true ->
  forall a, f a = g a.
Proof.
  intros H a. rewrite forallb_forall in H.
  apply Byte.byte_dec_bl, H, all_bytes_complete.
Qed.

Lemma byte_enum2 (f g : byte -> byte -> byte) :
  forallb (fun a => forallb (fun b => Byte.eqb (f a b) (g a b)) all_bytes)
          all_bytes = true ->
  forall a b, f a b = g a b.
Proof.
  intros H a b. rewrite forallb_forall in H.
  specialize (H a (all_bytes_complete a)). rewrite forallb_forall in H.
  apply Byte.byte_dec_bl, H, all_bytes_complete.
Qed.

Lemma bxor_comm (a b : byte) : bxor a b = bxor b a.
Proof.
  unfold bxor.
  destruct (to_bits a) as (a0 & a1 & a2 & a3 & a4 & a5 & a6 & a7).
  destruct (to_bits b) as (b0 & b1 & b2 & b3 & b4 & b5 & b6 & b7).
  repeat (f_equal; try apply xorb_comm).
Qed.

Lemma bxor_assoc (a b c : byte) : bxor a (bxor b c) = bxor (bxor a b) c.
Proof.
  unfold bxor.
  destruct (to_bits a) as (a0 & a1 & a2 & a3 & a4 & a5 & a6 & a7).
  destruct (to_bits b) as (b0 & b1 & b2 & b3 & b4 & b5 & b6 & b7).
  destruct (to_bits c) as (c0 & c1 & c2 & c3 & c4 & c5 & c6 & c7).
  rewrite !to_bits_of_bits.
  repeat (f_equal; try (symmetry; apply xorb_assoc)).
Qed.

Lemma bxor_nilpotent (a : byte) : bxor a a = x00.
Proof.
  revert a. apply (byte_enum1 (fun a => bxor a a) (fun _ => x00)).
  vm_compute. reflexivity.
Qed.

Lemma bxor_0_r (a : byte) : bxor a x00 = a.
Proof.
  revert a. apply (byte_enum1 (fun a => bxor a x00) (fun a => a)).
  vm_compute. reflexivity.
Qed.

Lemma bxor_0_l (a : byte) : bxor x00 a = a.
Proof. rewrite bxor_comm. apply bxor_0_r. Qed.

Lemma bxor_cancel_r (a b : byte) : bxor (bxor a b) b = a.
Proof. rewrite <- bxor_assoc, bxor_nilpotent. apply bxor_0_r. Qed.

Lemma xor_bytes_involutive (s k : bytes) : xor_bytes (xor_bytes s k) k = s.
Proof.
  revert k. induction s as [|a s IH]; intros [|b k]; simpl; try reflexivity.
  rewrite bxor_cancel_r, IH. reflexivity.
Qed.

Lemma xor_bytes_length (s k : bytes) : length (xor_bytes s k) = length s.
Proof.
  revert k. induction s as [|a s IH]; intros [|b k]; simpl; try reflexivity.
  rewrite IH. reflexivity.
Qed.

(** ** The S-box *)

Lemma inv_sbox_sbox (a : byte) : inv_sbox (sbox a) = a.
Proof.
  revert a. apply (byte_enum1 (fun a => inv_sbox (sbox a)) (fun a => a)).
  vm_compute. reflexivity.
Qed.

Lemma inv_sub_bytes_sub_bytes (st : bytes) : inv_sub_bytes (sub_bytes st) = st.
Proof.
  unfold inv_sub_bytes, sub_bytes. rewrite map_map.
  induction st as [|a st IH]; simpl; [|rewrite inv_sbox_sbox, IH]; reflexivity.
Qed.

(** ** ShiftRows *)

Lemma inv_shift_rows_shift_rows (st : bytes) :
  inv_shift_rows (shift_rows st) = st.
Proof.
  do 17 (destruct st as [|? st]; [reflexivity|]). reflexivity.
Qed.

Lemma shift_rows_length (st : bytes) : length (shift_rows st) = length st.
Proof.
  do 17 (destruct st as [|? st]; [reflexivity|]). reflexivity.
Qed.

(** ** MixColumns *)

Lemma bxor_swap_inner (a b c d : byte) :
  bxor (bxor a b) (bxor c d) = bxor (bxor a c) (bxor b d).
Proof.
  rewrite <- (bxor_assoc a b), (bxor_assoc b c d), (bxor_comm b c).
  rewrite <- (bxor_assoc c b d), (bxor_assoc a c). reflexivity.
Qed.

Lemma xtime_additive : additive xtime.
Proof.
  unfold additive.
  apply (byte_enum2 (fun a b => xtime (bxor a b))
                    (fun a b => bxor (xtime a) (xtime b))).
  vm_compute. reflexivity.
Qed.

Lemma gmul_bits_additive (bs : list bool) (a b : byte) :
  gmul_bits (bxor a b) bs = bxor (gmul_bits a bs) (gmul_bits b bs).
Proof.
  revert a b. induction bs as [|x bs IH]; intros a b; simpl.
  - symmetry. apply bxor_nilpotent.
  - rewrite xtime_additive, IH, bxor_swap_inner. f_equal.
    destruct x; [reflexivity | symmetry; apply bxor_nilpotent].
Qed.

Lemma gmul_additive (c : byte) : additive (fun a => gmul a c).
Proof. intros a b. unfold gmul. apply gmul_bits_additive. Qed.

Lemma quad_xor (a b c d a' b' c' d' : byte) :
  bxor (quad a b c d) (quad a' b' c' d')
  = quad (bxor a a') (bxor b b') (bxor c c') (bxor d d').
Proof.
  unfold quad. rewrite bxor_swap_inner. f_equal.
  rewrite bxor_swap_inner. f_equal.
  apply bxor_swap_inner.
Qed.

Lemma additive_quad (F : byte -> byte) (a b c d : byte) :
  additive F -> F (quad a b c d) = quad (F a) (F b) (F c) (F d).
Proof. intros HF. unfold quad. rewrite !HF. reflexivity. Qed.

(** A row applied to four rows, regrouped by input byte. *)
Lemma row_compose (F G H K : byte -> byte)
    (f0 g0 h0 k0 f1 g1 h1 k1 f2 g2 h2 k2 f3 g3 h3 k3 : byte -> byte)
    (a b c d : byte) :
  additive F -> additive G -> additive H -> additive K ->
  row F G H K (row f0 g0 h0 k0 a b c d) (row f1 g1 h1 k1 a b c d)
              (row f2 g2 h2 k2 a b c d) (row f3 g3 h3 k3 a b c d)
  = quad (row F G H K (f0 a) (f1 a) (f2 a) (f3 a))
         (row F G H K (g0 b) (g1 b) (g2 b) (g3 b))
         (row F G H K (h0 c) (h1 c) (h2 c) (h3 c))
         (row F G H K (k0 d) (k1 d) (k2 d) (k3 d)).
Proof.
  intros HF HG HH HK. unfold row.
  rewrite (additive_quad F), (additive_quad G), (additive_quad H),
    (additive_quad K) by assumption.
  unfold quad at 1. rewrite !quad_xor. reflexivity.
Qed.

Lemma quad_unit_1 (a : byte) : quad a x00 x00 x00 = a.
Proof. unfold quad. rewrite !bxor_0_r. reflexivity. Qed.

Lemma quad_unit_2 (a : byte) : quad x00 a x00 x00 = a.
Proof. unfold quad. rewrite !bxor_0_r, bxor_0_l. reflexivity. Qed.

Lemma quad_unit_3 (a : byte) : quad x00 x00 a x00 = a.
Proof. unfold quad. rewrite !bxor_0_r, !bxor_0_l. reflexivity. Qed.

Lemma quad_unit_4 (a : byte) : quad x00 x00 x00 a = a.
Proof. unfold quad. rewrite !bxor_0_l. reflexivity. Qed.

(** The product of the inverse matrix and the MixColumns matrix is the
    identity, entry by entry. *)
Lemma mix_matrix_inverse :
  ((forall x, row mul14 mul11 mul13 mul9 (mul2 x) x x (mul3 x) = x)
   /\ (forall x, row mul14 mul11 mul13 mul9 (mul3 x) (mul2 x) x x = x00)
   /\ (forall x, row mul14 mul11 mul13 mul9 x (mul3 x) (mul2 x) x = x00)
   /\ (forall x, row mul14 mul11 mul13 mul9 x x (mul3 x) (mul2 x) = x00))
  /\ ((forall x, row mul9 mul14 mul11 mul13 (mul2 x) x x (mul3 x) = x00)
   /\ (forall x, row mul9 mul14 mul11 mul13 (mul3 x) (mul2 x) x x = x)
   /\ (forall x, row mul9 mul14 mul11 mul13 x (mul3 x) (mul2 x) x = x00)
   /\ (forall x, row mul9 mul14 mul11 mul13 x x (mul3 x) (mul2 x) = x00))
  /\ ((forall x, row mul13 mul9 mul14 mul11 (mul2 x) x x (mul3 x) = x00)
   /\ (forall x, row mul13 mul9 mul14 mul11 (mul3 x) (mul2 x) x x = x00)
   /\ (forall x, row mul13 mul9 mul14 mul11 x (mul3 x) (mul2 x) x = x)
   /\ (forall x, row mul13 mul9 mul14 mul11 x x (mul3 x) (mul2 x) = x00))
  /\ ((forall x, row mul11 mul13 mul9 mul14 (mul2 x) x x (mul3 x) = x00)
   /\ (forall x, row mul11 mul13 mul9 mul14 (mul3 x) (mul2 x) x x = x00)
   /\ (forall x, row mul11 mul13 mul9 mul14 x (mul3 x) (mul2 x) x = x00)
   /\ (forall x, row mul11 mul13 mul9 mul14 x x (mul3 x) (mul2 x) = x)).
Proof.
  repeat split.
  all: match goal with
       | |- forall x, ?l = ?r =>
           apply (byte_enum1 (fun x => l) (fun x => r)); vm_compute; reflexivity
       end.
Qed.

Lemma mul9_additive : additive mul9.
Proof. exact (gmul_additive x09). Qed.

Lemma mul11_additive : additive mul11.
Proof. exact (gmul_additive x0b). Qed.

Lemma mul13_additive : additive mul13.
Proof. exact (gmul_additive x0d). Qed.

Lemma mul14_additive : additive mul14.
Proof. exact (gmul_additive x0e). Qed.

Lemma inv_mix_column_mix_column (a b c d : byte) :
  inv_mix_columns (mix_column a b c d) = [a; b; c; d].
Proof.
  destruct mix_matrix_inverse
    as ((A1 & A2 & A3 & A4) & (B1 & B2 & B3 & B4)
        & (C1 & C2 & C3 & C4) & (D1 & D2 & D3 & D4)).
  pose proof mul9_additive as H9. pose proof mul11_additive as H11.
  pose proof mul13_additive as H13. pose proof mul14_additive as H14.
  set (r0 := row mul2 mul3 keep keep a b c d).
  set (r1 := row keep mul2 mul3 keep a b c d).
  set (r2 := row keep keep mul2 mul3 a b c d).
  set (r3 := row mul3 keep keep mul2 a b c d).
  change (inv_mix_columns (mix_column a b c d))
    with [row mul14 mul11 mul13 mul9 r0 r1 r2 r3;
          row mul9 mul14 mul11 mul13 r0 r1 r2 r3;
          row mul13 mul9 mul14 mul11 r0 r1 r2 r3;
          row mul11 mul13 mul9 mul14 r0 r1 r2 r3].
  subst r0 r1 r2 r3.
  rewrite !row_compose by assumption. unfold keep.
  rewrite A1, A2, A3, A4, B1, B2, B3, B4, C1, C2, C3, C4, D1, D2, D3, D4.
  rewrite quad_unit_1, quad_unit_2, quad_unit_3, quad_unit_4. reflexivity.
Qed.

Lemma list_ind4 (A : Type) (P : list A -> Prop) :
  P [] -> (forall a, P [a]) -> (forall a b, P [a; b]) ->
  (forall a b c, P [a; b; c]) ->
  (forall a b c d rest, P rest -> P (a :: b :: c :: d :: rest)) ->
  forall l, P l.
Proof.
  intros H0 H1 H2 H3 H4.
  fix IH 1.
  intros [|a [|b [|c [|d rest]]]];
    [exact H0 | apply H1 | apply H2 | apply H3 | apply H4, IH].
Qed.

Lemma inv_mix_columns_mix_columns (st : bytes) :
  inv_mix_columns (mix_columns st) = st.
Proof.
  induction st as [| | | |a b c d rest IH] using list_ind4; try reflexivity.
  change (mix_columns (a :: b :: c :: d :: rest))
    with (mix_column a b c d ++ mix_columns rest).
  change (inv_mix_columns (mix_column a b c d ++ mix_columns rest))
    with (inv_mix_columns (mix_column a b c d) ++ inv_mix_columns (mix_columns rest)).
  rewrite inv_mix_column_mix_column, IH. reflexivity.
Qed.

Lemma mix_columns_length (st : bytes) : length (mix_columns st) = length st.
Proof.
  induction st as [| | | |a b c d rest IH] using list_ind4; try reflexivity.
  simpl. rewrite IH. reflexivity.
Qed.

(** ** The block cipher *)

Lemma inv_full_round_full_round (k st : bytes) :
  inv_full_round k (full_round k st) = st.
Proof.
  unfold inv_full_round, full_round, add_round_key.
  rewrite xor_bytes_involutive, inv_mix_columns_mix_columns,
    inv_shift_rows_shift_rows, inv_sub_bytes_sub_bytes.
  reflexivity.
Qed.

Lemma inv_final_round_final_round (k st : bytes) :
  inv_final_round k (final_round k st) = st.
Proof.
  unfold inv_final_round, final_round, add_round_key.
  rewrite xor_bytes_involutive, inv_shift_rows_shift_rows,
    inv_sub_bytes_sub_bytes.
  reflexivity.
Qed.

Lemma inv_rounds_rounds (rks : list bytes) (st : bytes) :
  inv_rounds rks (rounds rks st) = st.
Proof.
  revert st. induction rks as [|k rest IH]; intros st.
  - reflexivity.
  - destruct rest as [|k' rest'].
    + simpl. apply inv_final_round_final_round.
    + change (inv_full_round k
                (inv_rounds (k' :: rest') (rounds (k' :: rest') (full_round k st)))
              = st).
      rewrite IH. apply inv_full_round_full_round.
Qed.

Lemma inv_cipher_cipher (rks : list bytes) (st : bytes) :
  inv_cipher rks (cipher rks st) = st.
Proof.
  destruct rks as [|k0 rest]; simpl.
  - reflexivity.
  - rewrite inv_rounds_rounds. apply xor_bytes_involutive.
Qed.

Lemma aes_decrypt_encrypt_block (key block : bytes) :
  aes_decrypt_block key (aes_encrypt_block key block) = block.
Proof. apply inv_cipher_cipher. Qed.

Lemma full_round_length (k st : bytes) :
  length (full_round k st) = length st.
Proof.
  unfold full_round, add_round_key, sub_bytes.
  rewrite xor_bytes_length, mix_columns_length, shift_rows_length, length_map.
  reflexivity.
Qed.

Lemma final_round_length (k st : bytes) :
  length (final_round k st) = length st.
Proof.
  unfold final_round, add_round_key, sub_bytes.
  rewrite xor_bytes_length, shift_rows_length, length_map.
  reflexivity.
Qed.

Lemma rounds_length (rks : list bytes) (st : bytes) :
  length (rounds rks st) = length st.
Proof.
  revert st. induction rks as [|k rest IH]; intros st.
  - reflexivity.
  - destruct rest as [|k' rest'].
    + simpl. apply final_round_length.
    + change (length (rounds (k' :: rest') (full_round k st)) = length st).
      rewrite IH. apply full_round_length.
Qed.

Lemma cipher_length (rks : list bytes) (st : bytes) :
  length (cipher rks st) = length st.
Proof.
  destruct rks as [|k0 rest]; simpl.
  - reflexivity.
  - rewrite rounds_length. apply xor_bytes_length.
Qed.

Lemma aes_encrypt_block_length (key block : bytes) :
  length (aes_encrypt_block key block) = length block.
Proof. apply cipher_length. Qed.

(** ** Chunks *)

Lemma chunks_fuel_concat (A : Type) (n fuel : nat) (l : list A) :
  (0 < n)%nat -> (length l <= fuel)%nat -> concat (chunks_fuel fuel n l) = l.
Proof.
  intros Hn. revert l. induction fuel as [|fuel IH]; intros l Hl.
  - destruct l; [reflexivity | simpl in Hl; lia].
  - destruct l as [|a l]; [reflexivity|].
    cbn [chunks_fuel concat]. rewrite IH.
    + apply firstn_skipn.
    + rewrite length_skipn. cbn [length] in *. lia.
Qed.

Lemma chunks_concat (A : Type) (n : nat) (l : list A) :
  (0 < n)%nat -> concat (chunks n l) = l.
Proof. intros Hn. apply chunks_fuel_concat; [exact Hn | lia]. Qed.

Lemma chunks_fuel_app (A : Type) (n fuel : nat) (b rest : list A) :
  (0 < n)%nat -> length b = n -> (length rest <= fuel)%nat ->
  chunks_fuel (S fuel) n (b ++ rest) = b :: chunks_fuel fuel n rest.
Proof.
  intros Hn Hb Hr. cbn [chunks_fuel].
  destruct (b ++ rest) as [|x l] eqn:E.
  - destruct b; simpl in *; [lia | discriminate].
  - rewrite <- E. rewrite firstn_app, skipn_app, Hb, Nat.sub_diag.
    rewrite firstn_all2 by lia. rewrite skipn_all2 by lia.
    simpl. rewrite app_nil_r. reflexivity.
Qed.

Lemma chunks_fuel_more (A : Type) (n fuel fuel' : nat) (l : list A) :
  (0 < n)%nat -> (length l <= fuel)%nat -> (length l <= fuel')%nat ->
  chunks_fuel fuel n l = chunks_fuel fuel' n l.
Proof.
  intros Hn. revert fuel' l. induction fuel as [|fuel IH]; intros fuel' l H1 H2.
  - destruct l; [|simpl in H1; lia]. destruct fuel'; reflexivity.
  - destruct l as [|a l]; [destruct fuel'; reflexivity|].
    destruct fuel' as [|fuel']; [simpl in H2; lia|].
    cbn [chunks_fuel]. f_equal. apply IH; rewrite length_skipn; cbn [length] in *; lia.
Qed.

Lemma chunks_app (A : Type) (n : nat) (b rest : list A) :
  (0 < n)%nat -> length b = n -> chunks n (b ++ rest) = b :: chunks n rest.
Proof.
  intros Hn Hb. unfold chunks. rewrite length_app.
  replace (length b + length rest)%nat with (S (n - 1 + length rest)) by lia.
  rewrite chunks_fuel_app by (try assumption; lia).
  f_equal. apply chunks_fuel_more; lia.
Qed.

Lemma chunks_of_concat (A : Type) (n : nat) (bs : list (list A)) :
  (0 < n)%nat -> Forall (fun b => length b = n) bs ->
  chunks n (concat bs) = bs.
Proof.
  intros Hn H. induction H as [|b bs Hb Hbs IH]; simpl.
  - reflexivity.
  - rewrite chunks_app by assumption. f_equal. exact IH.
Qed.

Lemma chunks_fuel_lengths (A : Type) (n fuel q : nat) (l : list A) :
  (0 < n)%nat -> length l = (q * n)%nat -> (length l <= fuel)%nat ->
  Forall (fun b => length b = n) (chunks_fuel fuel n l)
  /\ length (chunks_fuel fuel n l) = q.
Proof.
  intros Hn. revert q l. induction fuel as [|fuel IH]; intros q l Hq Hl.
  - destruct l; [|simpl in Hl; lia]. simpl in *. split; [constructor | nia].
  - destruct l as [|a l].
    + simpl in *. split; [constructor | nia].
    + destruct q as [|q]; [simpl in Hq; discriminate|].
      cbn [chunks_fuel].
      destruct (IH q (skipn n (a :: l))) as [IH1 IH2].
      * rewrite length_skipn. lia.
      * rewrite length_skipn. cbn [length] in *. lia.
      * split.
        -- constructor; [|exact IH1]. rewrite length_firstn. lia.
        -- simpl. rewrite IH2. reflexivity.
Qed.

Lemma chunks_lengths (A : Type) (n q : nat) (l : list A) :
  (0 < n)%nat -> length l = (q * n)%nat ->
  Forall (fun b => length b = n) (chunks n l) /\ length (chunks n l) = q.
Proof. intros Hn Hq. apply chunks_fuel_lengths; [exact Hn | exact Hq | lia]. Qed.

Lemma concat_length_uniform (A : Type) (n : nat) (bs : list (list A)) :
  Forall (fun b => length b = n) bs ->
  length (concat bs) = (length bs * n)%nat.
Proof.
  induction 1 as [|b bs Hb Hbs IH]; simpl.
  - reflexivity.
  - rewrite length_app, IH, Hb. reflexivity.
Qed.

(** ** CBC *)

Section CBC.

Variables E D : bytes -> bytes.
Hypothesis D_inverts_E : forall b, D (E b) = b.
Hypothesis E_keeps_length : forall b, length (E b) = length b.

Lemma cbc_decrypt_encrypt (iv : bytes) (blocks : list bytes) :
  cbc_decrypt D iv (cbc_encrypt E iv blocks) = blocks.
Proof.
  revert iv. induction blocks as [|b bs IH]; intros iv; simpl.
  - reflexivity.
  - rewrite D_inverts_E, xor_bytes_involutive, IH. reflexivity.
Qed.

Lemma cbc_encrypt_lengths (iv : bytes) (blocks : list bytes) (n : nat) :
  Forall (fun b => length b = n) blocks ->
  Forall (fun b => length b = n) (cbc_encrypt E iv blocks)
  /\ length (cbc_encrypt E iv blocks) = length blocks.
Proof.
  intros H. revert iv. induction H as [|b bs Hb Hbs IH]; intros iv; simpl.
  - split; [constructor | reflexivity].
  - destruct (IH (E (xor_bytes b iv))) as [IH1 IH2]. split.
    + constructor; [|exact IH1].
      rewrite E_keeps_length, xor_bytes_length. exact Hb.
    + rewrite IH2. reflexivity.
Qed.

End CBC.

(** ** Padding *)

Lemma pad_length_range (n : nat) : (1 <= pad_length n <= 16)%nat.
Proof.
  unfold pad_length. pose proof (Nat.mod_upper_bound n 16). lia.
Qed.

Lemma pkcs7_pad_length (data : bytes) :
  length (pkcs7_pad data) = ((length data / 16 + 1) * 16)%nat.
Proof.
  unfold pkcs7_pad, pad_length. rewrite length_app, repeat_length.
  pose proof (Nat.div_mod_eq (length data) 16).
  pose proof (Nat.mod_upper_bound (length data) 16). lia.
Qed.

Lemma to_nat_byte_of_nat (n : nat) :
  (n <= 255)%nat -> Byte.to_nat (byte_of_nat n) = n.
Proof.
  intros Hn. unfold byte_of_nat.
  destruct (Byte.of_nat n) as [b|] eqn:E.
  - apply Byte.to_of_nat. exact E.
  - apply Byte.of_nat_None_iff in E. lia.
Qed.

Lemma last_app_repeat (A : Type) (l : list A) (x d : A) (n : nat) :
  (0 < n)%nat -> last (l ++ repeat x n) d = x.
Proof.
  intros Hn. destruct n as [|n]; [lia|].
  replace (repeat x (S n)) with (repeat x n ++ [x]).
  - rewrite app_assoc. apply last_last.
  - rewrite <- repeat_cons. reflexivity.
Qed.

Lemma forallb_eqb_repeat (b : byte) (n : nat) :
  forallb (Byte.eqb b) (repeat b n) = true.
Proof.
  induction n as [|n IH]; simpl; [reflexivity|].
  rewrite (Byte.byte_dec_lb eq_refl), IH. reflexivity.
Qed.

Lemma pkcs7_unpad_pad (data : bytes) : pkcs7_unpad (pkcs7_pad data) = Some data.
Proof.
  unfold pkcs7_unpad, pkcs7_pad.
  pose proof (pad_length_range (length data)) as Hp.
  set (p := pad_length (length data)) in *.
  rewrite last_app_repeat by lia.
  rewrite to_nat_byte_of_nat by lia.
  rewrite length_app, repeat_length.
  replace (length data + p - p)%nat with (length data) by lia.
  replace (1 <=? p)%nat with true by (symmetry; apply Nat.leb_le; lia).
  replace (p <=? 16)%nat with true by (symmetry; apply Nat.leb_le; lia).
  replace (p <=? length data + p)%nat with true by (symmetry; apply Nat.leb_le; lia).
  rewrite skipn_app, Nat.sub_diag, skipn_all.
  change ([] ++ skipn 0 (repeat (byte_of_nat p) p))
    with (repeat (byte_of_nat p) p).
  rewrite forallb_eqb_repeat.
  rewrite firstn_app, Nat.sub_diag, firstn_all. cbn [andb firstn].
  rewrite app_nil_r. reflexivity.
Qed.

Lemma byte_forall (P : byte -> bool) :
  forallb P all_bytes = true -> forall b, P b = true.
Proof.
  intros H b. rewrite forallb_forall in H. apply H, all_bytes_complete.
Qed.

(** ** Hexadecimal *)

Lemma hex_pair_decodes (b : byte) (rest : bytes) :
  hex_decode (hex_digit (Byte.to_nat b / 16) :: hex_digit (Byte.to_nat b mod 16) :: rest)
  = option_map (cons b) (hex_decode rest).
Proof.
  assert (H : forall b,
             match hex_value (hex_digit (Byte.to_nat b / 16)),
                   hex_value (hex_digit (Byte.to_nat b mod 16)) with
             | Some h, Some l => Byte.eqb (byte_of_nat (16 * h + l)) b
             | _, _ => false
             end = true).
  { apply byte_forall. vm_compute. reflexivity. }
  specialize (H b). cbn [hex_decode].
  destruct (hex_value (hex_digit (Byte.to_nat b / 16))) as [h|]; [|discriminate].
  destruct (hex_value (hex_digit (Byte.to_nat b mod 16))) as [l|]; [|discriminate].
  apply Byte.byte_dec_bl in H. rewrite H.
  destruct (hex_decode rest); reflexivity.
Qed.

Lemma hex_decode_stringToHex (raw : bytes) :
  hex_decode (stringToHex raw) = Some raw.
Proof.
  induction raw as [|b raw IH].
  - reflexivity.
  - change (stringToHex (b :: raw))
      with (hex_digit (Byte.to_nat b / 16) :: hex_digit (Byte.to_nat b mod 16)
            :: stringToHex raw).
    rewrite hex_pair_decodes, IH. reflexivity.
Qed.

Lemma hexToString_stringToHex (raw : bytes) :
  hexToString (stringToHex raw) = Ok raw.
Proof. unfold hexToString. rewrite hex_decode_stringToHex. reflexivity. Qed.

Lemma stringToHex_length (raw : bytes) :
  length (stringToHex raw) = (2 * length raw)%nat.
Proof.
  induction raw as [|b raw IH]; [reflexivity|].
  change (stringToHex (b :: raw))
    with (hex_digit (Byte.to_nat b / 16) :: hex_digit (Byte.to_nat b mod 16)
          :: stringToHex raw).
  cbn [length]. rewrite IH. lia.
Qed.

Lemma stringToHex_no_delimiter (raw : bytes) :
  Forall not_delimiter (stringToHex raw).
Proof.
  assert (H : forall b,
             negb (Byte.eqb (hex_digit (Byte.to_nat b / 16)) DATA_DELIMITER)
             && negb (Byte.eqb (hex_digit (Byte.to_nat b mod 16)) DATA_DELIMITER)
             = true).
  { apply byte_forall. vm_compute. reflexivity. }
  induction raw as [|b raw IH]; [constructor|].
  change (stringToHex (b :: raw))
    with (hex_digit (Byte.to_nat b / 16) :: hex_digit (Byte.to_nat b mod 16)
          :: stringToHex raw).
  specialize (H b). apply andb_true_iff in H. destruct H as [H1 H2].
  apply negb_true_iff in H1, H2.
  constructor; [apply Byte.eqb_false, H1|].
  constructor; [apply Byte.eqb_false, H2 | exact IH].
Qed.

Lemma list_ind2 (A : Type) (P : list A -> Prop) :
  P [] -> (forall a, P [a]) -> (forall a b rest, P rest -> P (a :: b :: rest)) ->
  forall l, P l.
Proof.
  intros H0 H1 H2. fix IH 1.
  intros [|a [|b rest]]; [exact H0 | apply H1 | apply H2, IH].
Qed.

Lemma hex_decode_length (hex : bytes) :
  forall raw, hex_decode hex = Some raw -> length hex = (2 * length raw)%nat.
Proof.
  induction hex as [| a | a b rest IH] using list_ind2; intros raw H.
  - injection H as <-. reflexivity.
  - discriminate.
  - cbn [hex_decode] in H.
    destruct (hex_value a); [|discriminate].
    destruct (hex_value b); [|discriminate].
    destruct (hex_decode rest) as [r|]; [|discriminate].
    injection H as <-. cbn [length]. rewrite (IH r eq_refl). lia.
Qed.

Lemma hexToString_length (hex raw : bytes) :
  hexToString hex = Ok raw -> (length hex / 2)%nat = length raw.
Proof.
  unfold hexToString. intros H.
  destruct (hex_decode hex) as [r|] eqn:E; [|discriminate].
  injection H as <-. rewrite (hex_decode_length hex r E).
  rewrite Nat.mul_comm. apply Nat.div_mul. lia.
Qed.

(** ** Base64 *)

Lemma list_ind3 (A : Type) (P : list A -> Prop) :
  P [] -> (forall a, P [a]) -> (forall a b, P [a; b]) ->
  (forall a b c rest, P rest -> P (a :: b :: c :: rest)) ->
  forall l, P l.
Proof.
  intros H0 H1 H2 H3. fix IH 1.
  intros [|a [|b [|c rest]]]; [exact H0 | apply H1 | apply H2 | apply H3, IH].
Qed.

Lemma base64_char_in_alphabet (k : N) : In (base64_char k) base64_alphabet.
Proof.
  unfold base64_char.
  destruct (nth_in_or_default (N.to_nat k) base64_alphabet x41) as [H | ->].
  - exact H.
  - left. reflexivity.
Qed.

Lemma base64_alphabet_plain :
  Forall (fun c => c <> base64_pad /\ c <> DATA_DELIMITER) base64_alphabet.
Proof.
  apply Forall_forall. intros c Hc.
  assert (H : forallb (fun c => negb (Byte.eqb c base64_pad)
                                && negb (Byte.eqb c DATA_DELIMITER))
                      base64_alphabet = true) by (vm_compute; reflexivity).
  rewrite forallb_forall in H. specialize (H c Hc).
  apply andb_true_iff in H. destruct H as [H1 H2].
  apply negb_true_iff in H1, H2. split; apply Byte.eqb_false; assumption.
Qed.

Lemma base64_char_not_pad (k : N) : Byte.eqb (base64_char k) base64_pad = false.
Proof.
  pose proof base64_alphabet_plain as H. rewrite Forall_forall in H.
  destruct (H _ (base64_char_in_alphabet k)) as [Hp _].
  destruct (Byte.eqb (base64_char k) base64_pad) eqn:E; [|reflexivity].
  apply Byte.byte_dec_bl in E. contradiction.
Qed.

Lemma base64_char_not_delimiter (k : N) : not_delimiter (base64_char k).
Proof.
  pose proof base64_alphabet_plain as H. rewrite Forall_forall in H.
  apply (H _ (base64_char_in_alphabet k)).
Qed.

Lemma base64_value_char (k : N) :
  (k < 64)%N -> base64_value (base64_char k) = Some k.
Proof.
  intros Hk.
  assert (H : forallb (fun n => match index_of (nth n base64_alphabet x41)
                                             base64_alphabet with
                                | Some m => Nat.eqb m n
                                | None => false
                                end) (seq 0 64) = true)
    by (vm_compute; reflexivity).
  rewrite forallb_forall in H.
  specialize (H (N.to_nat k)). unfold base64_value, base64_char.
  destruct (index_of (nth (N.to_nat k) base64_alphabet x41) base64_alphabet) as [m|].
  - assert (E : Nat.eqb m (N.to_nat k) = true) by (apply H, in_seq; lia).
    apply Nat.eqb_eq in E. subst m. simpl. rewrite N2Nat.id. reflexivity.
  - assert (E : false = true) by (apply H, in_seq; lia). discriminate.
Qed.

Lemma byte_of_N_to_N (b : byte) : byte_of_N (Byte.to_N b) = b.
Proof. unfold byte_of_N. rewrite Byte.of_to_N. reflexivity. Qed.

Lemma to_N_lt (b : byte) : (Byte.to_N b < 256)%N.
Proof. pose proof (Byte.to_N_bounded b). lia. Qed.

Lemma sextet_bounds (n : N) :
  (n < 16777216)%N ->
  (n / 262144 < 64 /\ n / 4096 mod 64 < 64 /\ n / 64 mod 64 < 64 /\ n mod 64 < 64)%N.
Proof. intros H. split; [|split; [|split]]; nlia. Qed.

Lemma group_value_sextets (n : N) :
  group_value (n / 262144) (n / 4096 mod 64) (n / 64 mod 64) (n mod 64) = n.
Proof. unfold group_value. nlia. Qed.

Lemma group_bytes_3 (a b c : byte) :
  group_bytes (Byte.to_N a * 65536 + Byte.to_N b * 256 + Byte.to_N c) = [a; b; c].
Proof.
  pose proof (to_N_lt a). pose proof (to_N_lt b). pose proof (to_N_lt c).
  unfold group_bytes.
  replace ((Byte.to_N a * 65536 + Byte.to_N b * 256 + Byte.to_N c) / 65536)%N
    with (Byte.to_N a) by nlia.
  replace ((Byte.to_N a * 65536 + Byte.to_N b * 256 + Byte.to_N c) / 256 mod 256)%N
    with (Byte.to_N b) by nlia.
  replace ((Byte.to_N a * 65536 + Byte.to_N b * 256 + Byte.to_N c) mod 256)%N
    with (Byte.to_N c) by nlia.
  rewrite !byte_of_N_to_N. reflexivity.
Qed.

Lemma base64_decode_sextets (a b c : byte) :
  let n := (Byte.to_N a * 65536 + Byte.to_N b * 256 + Byte.to_N c)%N in
  base64_value (base64_char (n / 262144)) = Some (n / 262144)%N
  /\ base64_value (base64_char (n / 4096 mod 64)) = Some (n / 4096 mod 64)%N
  /\ base64_value (base64_char (n / 64 mod 64)) = Some (n / 64 mod 64)%N
  /\ base64_value (base64_char (n mod 64)) = Some (n mod 64)%N.
Proof.
  intros n.
  pose proof (to_N_lt a) as Ha. pose proof (to_N_lt b) as Hb.
  pose proof (to_N_lt c) as Hc.
  destruct (sextet_bounds n) as (H1 & H2 & H3 & H4); [subst n; nlia|].
  repeat split; apply base64_value_char; assumption.
Qed.

Lemma base64Encode_nil (l : bytes) : base64Encode l = [] -> l = [].
Proof.
  destruct l as [|a [|b [|c rest]]]; [reflexivity | discriminate ..].
Qed.

Lemma base64_decode_group (a b c : byte) :
  let n := (Byte.to_N a * 65536 + Byte.to_N b * 256 + Byte.to_N c)%N in
  match base64_value (base64_char (n / 262144)),
        base64_value (base64_char (n / 4096 mod 64)),
        base64_value (base64_char (n / 64 mod 64)),
        base64_value (base64_char (n mod 64)) with
  | Some v1, Some v2, Some v3, Some v4 =>
      group_bytes (group_value v1 v2 v3 v4) = [a; b; c]
      /\ (Byte.to_N c = 0%N -> group_bytes (group_value v1 v2 v3 0) = [a; b; c])
      /\ (Byte.to_N c = 0%N -> Byte.to_N b = 0%N ->
          group_bytes (group_value v1 v2 0 0) = [a; b; c])
  | _, _, _, _ => False
  end.
Proof.
  intros n. destruct (base64_decode_sextets a b c) as (H1 & H2 & H3 & H4).
  fold n in H1, H2, H3, H4. rewrite H1, H2, H3, H4.
  pose proof (to_N_lt a). pose proof (to_N_lt b). pose proof (to_N_lt c).
  split; [|split].
  - rewrite group_value_sextets. apply group_bytes_3.
  - intros Hc. rewrite <- (group_bytes_3 a b c). f_equal. fold n.
    unfold group_value. subst n. nlia.
  - intros Hc Hb. rewrite <- (group_bytes_3 a b c). f_equal. fold n.
    unfold group_value. subst n. nlia.
Qed.

Lemma to_N_x00 : Byte.to_N x00 = 0%N.
Proof. reflexivity. Qed.

Lemma base64_decode_encode (binaryData : bytes) :
  base64_decode (base64Encode binaryData) = Some binaryData.
Proof.
  induction binaryData as [| a | a b | a b c rest IH] using list_ind3.
  - reflexivity.
  - pose proof (base64_decode_group a x00 x00) as G. cbv zeta in G.
    rewrite to_N_x00, !N.mul_0_l, !N.add_0_r in G.
    cbn [base64Encode sextets firstn app base64_decode].
    unfold base64_decode_last.
    destruct (base64_value (base64_char (Byte.to_N a * 65536 / 262144))) as [v1|];
      [|contradiction].
    destruct (base64_value (base64_char (Byte.to_N a * 65536 / 4096 mod 64))) as [v2|];
      [|contradiction].
    destruct (base64_value (base64_char (Byte.to_N a * 65536 / 64 mod 64))) as [v3|];
      [|contradiction].
    destruct (base64_value (base64_char (Byte.to_N a * 65536 mod 64))) as [v4|];
      [|contradiction].
    destruct G as (_ & _ & G). rewrite (Byte.byte_dec_lb (eq_refl base64_pad)).
    rewrite G by reflexivity. reflexivity.
  - pose proof (base64_decode_group a b x00) as G. cbv zeta in G.
    rewrite to_N_x00, !N.add_0_r in G.
    cbn [base64Encode sextets firstn app base64_decode].
    unfold base64_decode_last.
    set (n := (Byte.to_N a * 65536 + Byte.to_N b * 256)%N) in *.
    destruct (base64_value (base64_char (n / 262144))) as [v1|]; [|contradiction].
    destruct (base64_value (base64_char (n / 4096 mod 64))) as [v2|]; [|contradiction].
    destruct (base64_value (base64_char (n / 64 mod 64))) as [v3|]; [|contradiction].
    destruct (base64_value (base64_char (n mod 64))) as [v4|]; [|contradiction].
    destruct G as (_ & G & _).
    rewrite (Byte.byte_dec_lb (eq_refl base64_pad)), base64_char_not_pad.
    rewrite G by reflexivity. reflexivity.
  - pose proof (base64_decode_group a b c) as G. cbv zeta in G.
    cbn [base64Encode sextets app base64_decode].
    set (n := (Byte.to_N a * 65536 + Byte.to_N b * 256 + Byte.to_N c)%N) in *.
    destruct (base64Encode rest) as [|x l] eqn:E.
    + apply base64Encode_nil in E. subst rest.
      unfold base64_decode_last. rewrite base64_char_not_pad.
      destruct (base64_value (base64_char (n / 262144))) as [v1|]; [|contradiction].
      destruct (base64_value (base64_char (n / 4096 mod 64))) as [v2|]; [|contradiction].
      destruct (base64_value (base64_char (n / 64 mod 64))) as [v3|]; [|contradiction].
      destruct (base64_value (base64_char (n mod 64))) as [v4|]; [|contradiction].
      destruct G as (G & _). rewrite G. reflexivity.
    + destruct (base64_value (base64_char (n / 262144))) as [v1|]; [|contradiction].
      destruct (base64_value (base64_char (n / 4096 mod 64))) as [v2|]; [|contradiction].
      destruct (base64_value (base64_char (n / 64 mod 64))) as [v3|]; [|contradiction].
      destruct (base64_value (base64_char (n mod 64))) as [v4|]; [|contradiction].
      destruct G as (G & _). rewrite G.
      change (base64_decode (x :: l)) with (base64_decode (x :: l)).
      rewrite IH. reflexivity.
Qed.

Lemma base64Decode_base64Encode (binaryData : bytes) :
  base64Decode (base64Encode binaryData) = Ok binaryData.
Proof. unfold base64Decode. rewrite base64_decode_encode. reflexivity. Qed.

Lemma base64Encode_length (binaryData : bytes) :
  length (base64Encode binaryData) = (4 * ((length binaryData + 2) / 3))%nat.
Proof.
  induction binaryData as [| a | a b | a b c rest IH] using list_ind3;
    try reflexivity.
  cbn [base64Encode sextets app length]. rewrite IH.
  replace (S (S (S (length rest))) + 2)%nat with (length rest + 2 + 1 * 3)%nat by lia.
  rewrite Nat.div_add by lia. lia.
Qed.

Lemma base64Encode_no_delimiter (binaryData : bytes) :
  Forall not_delimiter (base64Encode binaryData).
Proof.
  assert (Hp : not_delimiter base64_pad) by (intros E; discriminate E).
  induction binaryData as [| a | a b | a b c rest IH] using list_ind3;
    cbn [base64Encode sextets firstn app];
    repeat (constructor; try apply base64_char_not_delimiter; try exact Hp).
  exact IH.
Qed.

(** ** Decimal numbers *)

Lemma to_nat_dec_digit (k : Z) :
  k <= 9 -> Byte.to_nat (dec_digit k) = (48 + Z.to_nat k)%nat.
Proof. intros Hk. unfold dec_digit. apply to_nat_byte_of_nat. lia. Qed.

Lemma dec_value_dec_digit (k : Z) :
  0 <= k <= 9 -> dec_value (dec_digit k) = Some k.
Proof.
  intros Hk. unfold dec_value. rewrite to_nat_dec_digit by lia.
  replace (48 <=? 48 + Z.to_nat k)%nat with true by (symmetry; apply Nat.leb_le; lia).
  replace (48 + Z.to_nat k <=? 57)%nat with true by (symmetry; apply Nat.leb_le; lia).
  cbn [andb]. f_equal. lia.
Qed.

Lemma dec_digit_not_delimiter (k : Z) : k <= 9 -> not_delimiter (dec_digit k).
Proof.
  intros Hk E. apply (f_equal Byte.to_nat) in E.
  rewrite to_nat_dec_digit in E by lia.
  change (Byte.to_nat DATA_DELIMITER) with 58%nat in E. lia.
Qed.

Lemma to_decimal_fuel_no_delimiter (fuel : nat) (n : Z) (acc : bytes) :
  Forall not_delimiter acc -> Forall not_delimiter (to_decimal_fuel fuel n acc).
Proof.
  revert n acc. induction fuel as [|fuel IH]; intros n acc Hacc; simpl.
  - exact Hacc.
  - destruct (n <? 10) eqn:E.
    + apply Z.ltb_lt in E. constructor; [|exact Hacc].
      apply dec_digit_not_delimiter. lia.
    + apply IH. constructor; [|exact Hacc].
      apply dec_digit_not_delimiter.
      pose proof (Z.mod_pos_bound n 10 ltac:(lia)). lia.
Qed.

Lemma to_decimal_no_delimiter (n : Z) : Forall not_delimiter (to_decimal n).
Proof. apply to_decimal_fuel_no_delimiter. constructor. Qed.

Lemma to_decimal_fuel_length (fuel : nat) (n : Z) (acc : bytes) :
  Z.of_nat (length (to_decimal_fuel fuel n acc))
  = decimal_digits_fuel fuel n + Z.of_nat (length acc).
Proof.
  revert n acc. induction fuel as [|fuel IH]; intros n acc;
    cbn [to_decimal_fuel decimal_digits_fuel].
  - reflexivity.
  - destruct (n <? 10).
    + cbn [length]. lia.
    + rewrite IH. cbn [length]. lia.
Qed.

Lemma to_decimal_length (n : Z) :
  Z.of_nat (length (to_decimal n)) = decimal_digits n.
Proof.
  unfold to_decimal, decimal_digits. rewrite to_decimal_fuel_length.
  simpl length. lia.
Qed.

Lemma decimal_digits_fuel_bound (fuel : nat) (n : Z) :
  0 <= decimal_digits_fuel fuel n <= Z.of_nat fuel.
Proof.
  revert n. induction fuel as [|fuel IH]; intros n.
  - simpl. lia.
  - cbn [decimal_digits_fuel]. destruct (n <? 10); [lia|].
    specialize (IH (n / 10)). lia.
Qed.

Lemma decimal_digits_bound (n : Z) : 1 <= n -> 1 <= decimal_digits n <= n.
Proof.
  intros Hn. unfold decimal_digits.
  pose proof (decimal_digits_fuel_bound (S (Z.to_nat (Z.log2 n))) n) as H.
  pose proof (Z.log2_nonneg n). pose proof (Z.log2_lt_lin n ltac:(lia)).
  split; [|lia].
  cbn [decimal_digits_fuel]. destruct (n <? 10); [lia|].
  pose proof (decimal_digits_fuel_bound (Z.to_nat (Z.log2 n)) (n / 10)). lia.
Qed.

Lemma parse_decimal_from_app (s t : bytes) (acc : Z) :
  parse_decimal_from acc (s ++ t)
  = match parse_decimal_from acc s with
    | Some v => parse_decimal_from v t
    | None => None
    end.
Proof.
  revert acc. induction s as [|c s IH]; intros acc; simpl.
  - reflexivity.
  - destruct (dec_value c); [apply IH | reflexivity].
Qed.

Lemma to_decimal_fuel_acc (fuel : nat) (n : Z) (acc : bytes) :
  to_decimal_fuel fuel n acc = to_decimal_fuel fuel n [] ++ acc.
Proof.
  revert n acc. induction fuel as [|fuel IH]; intros n acc; simpl.
  - reflexivity.
  - destruct (n <? 10); [reflexivity|].
    rewrite IH, (IH _ [_]), <- app_assoc. reflexivity.
Qed.

Lemma parse_to_decimal_fuel (fuel : nat) (n : Z) :
  0 <= n < 2 ^ Z.of_nat fuel ->
  parse_decimal_from 0 (to_decimal_fuel fuel n []) = Some n.
Proof.
  revert n. induction fuel as [|fuel IH]; intros n Hn.
  - simpl in *. f_equal; lia.
  - cbn [to_decimal_fuel]. destruct (n <? 10) eqn:E.
    + apply Z.ltb_lt in E. cbn [parse_decimal_from].
      rewrite dec_value_dec_digit by lia. cbn [parse_decimal_from].
      f_equal; lia.
    + apply Z.ltb_ge in E.
      rewrite to_decimal_fuel_acc, parse_decimal_from_app, IH.
      * cbn [parse_decimal_from]. pose proof (Z.mod_pos_bound n 10 ltac:(lia)).
        rewrite dec_value_dec_digit by lia. cbn [parse_decimal_from].
        pose proof (Z.div_mod n 10 ltac:(lia)). f_equal; lia.
      * rewrite Nat2Z.inj_succ, Z.pow_succ_r in Hn by lia.
        split; [apply Z.div_pos; lia|].
        apply Z.div_lt_upper_bound; lia.
Qed.

Lemma to_decimal_nonempty (n : Z) : to_decimal n <> [].
Proof.
  unfold to_decimal. cbn [to_decimal_fuel].
  destruct (n <? 10); [discriminate|].
  rewrite to_decimal_fuel_acc. intros E. apply app_eq_nil in E.
  destruct E as [_ E]. discriminate E.
Qed.

Lemma parse_decimal_to_decimal (n : Z) :
  0 <= n -> parse_decimal (to_decimal n) = Some n.
Proof.
  intros Hn. unfold parse_decimal.
  destruct (to_decimal n) as [|c s] eqn:E;
    [apply to_decimal_nonempty in E; contradiction|].
  rewrite <- E. unfold to_decimal. apply parse_to_decimal_fuel.
  split; [exact Hn|].
  rewrite Nat2Z.inj_succ, Z2Nat.id by apply Z.log2_nonneg.
  destruct (Z.eq_dec n 0) as [->|Hz]; [reflexivity|].
  apply Z.log2_spec. lia.
Qed.

(** ** The envelope parser *)

Lemma eqb_delimiter_false (c : byte) :
  not_delimiter c -> Byte.eqb c DATA_DELIMITER = false.
Proof.
  intros H. destruct (Byte.eqb c DATA_DELIMITER) eqn:E; [|reflexivity].
  apply Byte.byte_dec_bl in E. contradiction.
Qed.

Lemma append_field_nil (p : Parser) : append_field p [] = p.
Proof.
  destruct p as [st l i t f]. unfold append_field; simpl.
  destruct st; rewrite ?app_nil_r; reflexivity.
Qed.

Lemma append_field_app (p : Parser) (c : byte) (s : bytes) :
  p_state p <> Done ->
  append_field (append_field p [c]) s = append_field p (c :: s).
Proof.
  destruct p as [st l i t f]. unfold append_field; simpl.
  destruct st; simpl; intros H; rewrite <- ?app_assoc; reflexivity.
Qed.

Lemma append_field_state (p : Parser) (s : bytes) :
  p_state (append_field p s) = p_state p.
Proof. destruct p as [st l i t f]. destruct st; reflexivity. Qed.

Lemma parse_field (s rest : bytes) (p : Parser) :
  Forall not_delimiter s -> p_state p <> Done ->
  fold_left parse_step (s ++ rest) (Ok p)
  = fold_left parse_step rest (Ok (append_field p s)).
Proof.
  intros Hs. revert p. induction Hs as [|c s Hc Hs IH]; intros p Hp.
  - rewrite append_field_nil. reflexivity.
  - cbn [app fold_left].
    assert (E : parse_step (Ok p) c = Ok (append_field p [c])).
    { unfold parse_step, bind. rewrite (eqb_delimiter_false c Hc).
      destruct p as [st l i t f]. unfold append_field. simpl in *.
      destruct st; try reflexivity. contradiction. }
    rewrite E, IH by (rewrite append_field_state; exact Hp).
    rewrite append_field_app by exact Hp. reflexivity.
Qed.

Lemma parse_envelope_four_fields (len iv cid payload : bytes) :
  Forall not_delimiter len -> Forall not_delimiter iv ->
  Forall not_delimiter cid -> Forall not_delimiter payload ->
  parse_envelope (len ++ [DATA_DELIMITER] ++ iv ++ [DATA_DELIMITER]
                  ++ cid ++ [DATA_DELIMITER] ++ payload)
  = (n <- of_option ParseError (parse_decimal len) ;;
     Ok {| env_cipherLength := n; env_ivHex := iv; env_clientId := cid;
           env_payload := payload |}).
Proof.
  intros Hl Hi Hc Hp. unfold parse_envelope.
  rewrite parse_field by (try assumption; discriminate).
  cbn [app fold_left].
  change (fold_left parse_step ?l (parse_step ?r ?c))
    with (fold_left parse_step (c :: l) r).
  cbn [fold_left]. unfold parse_step at 2. cbn [bind].
  rewrite (Byte.byte_dec_lb (eq_refl DATA_DELIMITER)).
  cbn [append_field parser_start p_state p_length p_iv p_third p_fourth app].
  rewrite parse_field by (try assumption; discriminate).
  cbn [app fold_left]. unfold parse_step at 2. cbn [bind].
  rewrite (Byte.byte_dec_lb (eq_refl DATA_DELIMITER)).
  cbn [append_field p_state p_length p_iv p_third p_fourth app].
  rewrite parse_field by (try assumption; discriminate).
  cbn [app fold_left]. unfold parse_step at 2. cbn [bind].
  rewrite (Byte.byte_dec_lb (eq_refl DATA_DELIMITER)).
  cbn [append_field p_state p_length p_iv p_third p_fourth app].
  rewrite <- (app_nil_r payload) at 1.
  rewrite parse_field by (try assumption; discriminate).
  cbn [fold_left append_field p_state p_length p_iv p_third p_fourth app].
  unfold parse_finish. cbn [bind p_state p_length p_iv p_third p_fourth].
  destruct (parse_decimal len); reflexivity.
Qed.

Lemma parse_envelope_three_fields (len iv payload : bytes) :
  Forall not_delimiter len -> Forall not_delimiter iv ->
  Forall not_delimiter payload ->
  parse_envelope (len ++ [DATA_DELIMITER] ++ iv ++ [DATA_DELIMITER] ++ payload)
  = (n <- of_option ParseError (parse_decimal len) ;;
     Ok {| env_cipherLength := n; env_ivHex := iv; env_clientId := [];
           env_payload := payload |}).
Proof.
  intros Hl Hi Hp. unfold parse_envelope.
  rewrite parse_field by (try assumption; discriminate).
  cbn [app fold_left]. unfold parse_step at 2. cbn [bind].
  rewrite (Byte.byte_dec_lb (eq_refl DATA_DELIMITER)).
  cbn [append_field parser_start p_state p_length p_iv p_third p_fourth app].
  rewrite parse_field by (try assumption; discriminate).
  cbn [app fold_left]. unfold parse_step at 2. cbn [bind].
  rewrite (Byte.byte_dec_lb (eq_refl DATA_DELIMITER)).
  cbn [append_field p_state p_length p_iv p_third p_fourth app].
  rewrite <- (app_nil_r payload) at 1.
  rewrite parse_field by (try assumption; discriminate).
  cbn [fold_left append_field p_state p_length p_iv p_third p_fourth app].
  unfold parse_finish. cbn [bind p_state p_length p_iv p_third p_fourth].
  destruct (parse_decimal len); reflexivity.
Qed.

(** ** AES-CBC over byte strings *)

Lemma aes_cbc_blocks (key iv plain : bytes) :
  let q := (length plain / 16 + 1)%nat in
  let enc := cbc_encrypt (aes_encrypt_block key) iv
                         (chunks 16 (pkcs7_pad plain)) in
  Forall (fun b => length b = 16%nat) enc /\ length enc = q.
Proof.
  intros q enc.
  destruct (chunks_lengths byte 16 q (pkcs7_pad plain)) as [H1 H2];
    [lia | apply pkcs7_pad_length|].
  destruct (cbc_encrypt_lengths (aes_encrypt_block key)
              (aes_encrypt_block_length key) iv _ 16 H1) as [H3 H4].
  split; [exact H3 | subst enc; rewrite H4; exact H2].
Qed.

Lemma aes_cbc_encrypt_length (key iv plain : bytes) :
  length (aes_cbc_encrypt key iv plain) = ((length plain / 16 + 1) * 16)%nat.
Proof.
  destruct (aes_cbc_blocks key iv plain) as [H1 H2].
  unfold aes_cbc_encrypt. rewrite (concat_length_uniform _ 16) by exact H1.
  f_equal. exact H2.
Qed.

Lemma aes_cbc_decrypt_encrypt (key iv plain : bytes) :
  aes_cbc_decrypt key iv (aes_cbc_encrypt key iv plain) = Some plain.
Proof.
  unfold aes_cbc_decrypt. rewrite aes_cbc_encrypt_length.
  replace ((length plain / 16 + 1) * 16 =? 0)%nat with false
    by (symmetry; apply Nat.eqb_neq; lia).
  rewrite Nat.Div0.mod_mul. cbn [Nat.eqb negb orb].
  destruct (aes_cbc_blocks key iv plain) as [H1 _].
  unfold aes_cbc_encrypt. rewrite chunks_of_concat by (try exact H1; lia).
  rewrite (cbc_decrypt_encrypt _ _ (aes_decrypt_encrypt_block key)).
  rewrite chunks_concat by lia.
  apply pkcs7_unpad_pad.
Qed.

Lemma valid_key_size_iff (n : nat) :
  valid_key_size n = true <-> In n [16; 24; 32]%nat.
Proof.
  unfold valid_key_size. rewrite !orb_true_iff, !Nat.eqb_eq. simpl.
  intuition congruence.
Qed.

Lemma encryptAES_with_iv (rng : RandomPool) (data key : cptr) (keySize : nat)
    (iv : bytes) :
  valid_key_size keySize = true -> (keySize <= length key)%nat ->
  length iv = 16%nat ->
  encryptAES rng data key keySize iv
  = Ok (aes_cbc_encrypt (firstn keySize key) iv (c_string data), iv, rng).
Proof.
  intros Hv Hk Hiv. unfold encryptAES. rewrite Hv.
  apply Nat.leb_le in Hk. rewrite Hk. cbn [andb negb].
  destruct iv as [|b iv]; [discriminate Hiv|].
  rewrite Hiv. reflexivity.
Qed.

Lemma generateBlock_length (n : nat) (rng : RandomPool) :
  length (fst (generateBlock n rng)) = n.
Proof. unfold generateBlock. cbn [fst]. rewrite length_map, length_seq. reflexivity. Qed.

Lemma encryptAES_fresh_iv (rng : RandomPool) (data key : cptr) (keySize : nat) :
  valid_key_size keySize = true -> (keySize <= length key)%nat ->
  encryptAES rng data key keySize []
  = Ok (aes_cbc_encrypt (firstn keySize key) (fst (generateBlock 16 rng))
                        (c_string data),
        fst (generateBlock 16 rng), snd (generateBlock 16 rng)).
Proof.
  intros Hv Hk. unfold encryptAES. rewrite Hv.
  apply Nat.leb_le in Hk. rewrite Hk. cbn [andb negb].
  pose proof (generateBlock_length 16 rng) as Hl.
  destruct (generateBlock 16 rng) as [ivArr rng']. cbn [fst snd] in *.
  rewrite Hl. reflexivity.
Qed.

Lemma decryptAES_valid (data : bytes) (key : cptr) (keySize : nat) (iv : bytes) :
  valid_key_size keySize = true -> (keySize <= length key)%nat ->
  length iv = 16%nat ->
  decryptAES data key keySize iv
  = of_option DecryptionError (aes_cbc_decrypt (firstn keySize key) iv data).
Proof.
  intros Hv Hk Hiv. unfold decryptAES. rewrite Hv.
  apply Nat.leb_le in Hk. rewrite Hk, Hiv. reflexivity.
Qed.

Lemma nul_free_hello : nul_free hello.
Proof. apply nul_freeb_spec. reflexivity. Qed.

(** ** The envelope *)

Lemma firstn_c_str (key : bytes) : firstn (length key) (c_str key) = key.
Proof.
  unfold c_str. rewrite firstn_app, firstn_all, Nat.sub_diag.
  cbn [firstn]. apply app_nil_r.
Qed.

Lemma c_str_length (s : bytes) : length (c_str s) = S (length s).
Proof. unfold c_str. rewrite length_app. cbn [length]. lia. Qed.

Lemma prepareData_envelope (rng : RandomPool) (data : cptr)
    (hexKey key : bytes) (clientId : cptr) :
  hexToString hexKey = Ok key -> In (length key) [16; 24; 32]%nat ->
  prepareData rng data hexKey clientId
  = Ok (envelope_text (aes_cbc_encrypt key (fst (generateBlock 16 rng))
                                     (c_string data))
                    (fst (generateBlock 16 rng)) (c_string clientId),
        snd (generateBlock 16 rng)).
Proof.
  intros Hkey Hlen. apply valid_key_size_iff in Hlen.
  unfold prepareData. rewrite Hkey. cbn [bind].
  rewrite (hexToString_length hexKey key Hkey).
  rewrite encryptAES_fresh_iv by (try assumption; rewrite c_str_length; lia).
  cbn [bind]. rewrite firstn_c_str. reflexivity.
Qed.

Lemma decryptAES_hexKey_envelope (hexKey key cipherText iv client : bytes)
    (plain : bytes) :
  hexToString hexKey = Ok key -> In (length key) [16; 24; 32]%nat ->
  length iv = 16%nat -> Forall not_delimiter client ->
  aes_cbc_decrypt key iv cipherText = Some plain ->
  decryptAES_hexKey (envelope_text cipherText iv client) hexKey [] true false
  = Ok plain.
Proof.
  intros Hkey Hlen Hiv Hc Hdec. apply valid_key_size_iff in Hlen.
  unfold decryptAES_hexKey. rewrite Hkey. cbn [bind].
  assert (Hparse : parse_envelope (envelope_text cipherText iv client)
                   = Ok {| env_cipherLength := Z.of_nat (length cipherText);
                           env_ivHex := stringToHex iv;
                           env_clientId := client;
                           env_payload := base64Encode cipherText |}).
  { unfold envelope_text. destruct client as [|c client'].
    - change ([] ++ base64Encode cipherText) with (base64Encode cipherText).
      rewrite parse_envelope_three_fields.
      + rewrite parse_decimal_to_decimal by lia. reflexivity.
      + apply to_decimal_no_delimiter.
      + apply stringToHex_no_delimiter.
      + apply base64Encode_no_delimiter.
    - rewrite <- (app_assoc (c :: client')).
      rewrite parse_envelope_four_fields.
      + rewrite parse_decimal_to_decimal by lia. reflexivity.
      + apply to_decimal_no_delimiter.
      + apply stringToHex_no_delimiter.
      + exact Hc.
      + apply base64Encode_no_delimiter. }
  rewrite Hparse. cbn [bind env_ivHex env_payload env_cipherLength].
  rewrite hexToString_stringToHex. cbn [bind].
  unfold decode_payload. rewrite base64Decode_base64Encode. cbn [bind].
  rewrite Z.eqb_refl. cbn [negb].
  rewrite (hexToString_length hexKey key Hkey).
  rewrite decryptAES_valid by (try assumption; rewrite c_str_length; lia).
  rewrite firstn_c_str, Hdec. reflexivity.
Qed.

Lemma client1_plain : Forall not_delimiter client1 /\ nul_free client1.
Proof.
  split.
  - repeat constructor; intros E; discriminate E.
  - apply nul_freeb_spec. reflexivity.
Qed.

Lemma hexToString_zero_hex_key : hexToString zero_hex_key = Ok zero_key.
Proof. vm_compute. reflexivity. Qed.

Lemma base64Encode_length_Z (binaryData : bytes) :
  Z.of_nat (length (base64Encode binaryData))
  = 4 * ((Z.of_nat (length binaryData) + 2) / 3).
Proof.
  rewrite base64Encode_length, Nat2Z.inj_mul, Nat2Z.inj_div, Nat2Z.inj_add.
  reflexivity.
Qed.

Lemma concat_length_bound (A : Type) (n : nat) (bs : list (list A)) :
  Forall (fun b => (length b <= n)%nat) bs ->
  (length (concat bs) <= length bs * n)%nat.
Proof.
  induction 1 as [|b bs Hb Hbs IH]; simpl.
  - lia.
  - rewrite length_app. lia.
Qed.


(** ** Lengths of ciphertexts and envelopes *)



Lemma aes_cbc_encrypt_length_Z (key iv plain : bytes) :
  Z.of_nat (length (aes_cbc_encrypt key iv plain))
  = (Z.of_nat (length plain) / 16 + 1) * 16.
Proof.
  rewrite aes_cbc_encrypt_length.
  rewrite Nat2Z.inj_mul, Nat2Z.inj_add, Nat2Z.inj_div. reflexivity.
Qed.

Lemma envelope_text_length (cipherText iv client : bytes) :
  length iv = 16%nat ->
  Z.of_nat (length (envelope_text cipherText iv client))
  = decimal_digits (Z.of_nat (length cipherText)) + 1 + 32 + 1
    + (if 0 <? Z.of_nat (length client)
       then Z.of_nat (length client) + 1 else 0)
    + 4 * ((Z.of_nat (length cipherText) + 2) / 3).
Proof.
  intros Hiv. unfold envelope_text. rewrite !length_app, !Nat2Z.inj_add.
  rewrite to_decimal_length, stringToHex_length, base64Encode_length_Z, Hiv.
  destruct client as [|x cid].
  - cbn [length]. change (0 <? Z.of_nat 0) with false. lia.
  - rewrite length_app, Nat2Z.inj_add. cbn [length].
    replace (0 <? Z.of_nat (S (length cid))) with true
      by (symmetry; apply Z.ltb_lt; lia).
    lia.
Qed.

(** The length of the envelope of [prepareData], in unbounded integers. *)
Lemma prepareData_length (rng : RandomPool) (data clientId : cptr)
    (hexKey key : bytes) :
  hexToString hexKey = Ok key -> In (length key) [16; 24; 32]%nat ->
  exists envelope rng',
    prepareData rng data hexKey clientId = Ok (envelope, rng')
    /\ Z.of_nat (length envelope)
       = decimal_digits ((Z.of_nat (strlen data) / 16 + 1) * 16) + 1 + 32 + 1
         + (if 0 <? Z.of_nat (strlen clientId)
            then Z.of_nat (strlen clientId) + 1 else 0)
         + 4 * (((Z.of_nat (strlen data) / 16 + 1) * 16 + 2) / 3).
Proof.
  intros Hkey Hlen.
  rewrite (prepareData_envelope rng data hexKey key clientId Hkey Hlen).
  eexists. eexists. split; [reflexivity|].
  rewrite envelope_text_length by apply generateBlock_length.
  rewrite aes_cbc_encrypt_length_Z. reflexivity.
Qed.

Lemma expectedBase64Length_too_small (dm : DataModel) (n : Z) :
  0 <= n <= SIZE_MAX dm -> SIZE_MAX dm < 4 * n ->
  0 <= expectedBase64Length dm n < 4 * ((n + 2) / 3).
Proof.
  intros Hn Hbig. rewrite expectedBase64Length_unfold.
  unfold to_size_t, wrap, SIZE_MAX in *.
  destruct dm; norm_pow2; Z.div_mod_to_equations; lia.
Qed.

(** Beyond the bound of C3 the prediction is short for every envelope that
    is a [std::string]: the bound is the weakest one. *)
Lemma expectedDataSize_short_beyond_bound (dm : DataModel) (rng : RandomPool)
    (data clientId : cptr) (hexKey key : bytes) :
  hexToString hexKey = Ok key -> In (length key) [16; 24; 32]%nat ->
  SIZE_MAX dm < 4 * ((Z.of_nat (strlen data) / 16 + 1) * 16) ->
  exists envelope rng',
    prepareData rng data hexKey clientId = Ok (envelope, rng')
    /\ (Z.of_nat (length envelope) <= SIZE_MAX dm ->
        expectedDataSize dm (Z.of_nat (strlen data))
                         (Z.of_nat (strlen clientId))
        < Z.of_nat (length envelope)).
Proof.
  intros Hkey Hlen Hbig.
  destruct (prepareData_length rng data clientId hexKey key Hkey Hlen)
    as [envelope [rng' [Hprep HL]]].
  exists envelope, rng'. split; [exact Hprep|]. intros Hrep.
  set (n := Z.of_nat (strlen data)) in *.
  set (cid := Z.of_nat (strlen clientId)) in *.
  set (c := (n / 16 + 1) * 16) in *.
  assert (Hn : 0 <= n) by (subst n; lia).
  assert (Hcid : 0 <= cid) by (subst cid; lia).
  assert (Hc : n < c <= n + 16 /\ c mod 16 = 0)
    by (subst c; Z.div_mod_to_equations; lia).
  assert (Hd : 1 <= decimal_digits c) by (apply decimal_digits_bound; lia).
  assert (Hopt : 0 <= (if 0 <? cid then cid + 1 else 0))
    by (destruct (0 <? cid); lia).
  assert (Hb : c <= 4 * ((c + 2) / 3)) by (Z.div_mod_to_equations; lia).
  assert (Hcmax : c + 15 <= SIZE_MAX dm).
  { unfold SIZE_MAX in *. destruct dm; norm_pow2; Z.div_mod_to_equations; lia. }
  assert (Ea : expectedAESCipherLength dm n = c)
    by (apply expectedAESCipherLength_small; lia).
  pose proof (expectedBase64Length_too_small dm c ltac:(lia) Hbig) as Hw.
  unfold expectedDataSize. rewrite Ea.
  rewrite to_size_t_small; lia.
Qed.

(** ** Known answers

    The block cipher against the example vectors of the AES standard
    (appendix C: keys 00 01 02 ..., plaintext 00 11 22 ... ff), and the codecs
    against the header's own example ("khn = 6b686e"). *)

Example aes128_known_answer :
  aes_encrypt_block (map byte_of_nat (seq 0 16))
                    (map (fun i => byte_of_nat (17 * i)) (seq 0 16))
  = [x69; xc4; xe0; xd8; x6a; x7b; x04; x30;
     xd8; xcd; xb7; x80; x70; xb4; xc5; x5a].
Proof. vm_compute. reflexivity. Qed.

Example aes192_known_answer :
  aes_encrypt_block (map byte_of_nat (seq 0 24))
                    (map (fun i => byte_of_nat (17 * i)) (seq 0 16))
  = [xdd; xa9; x7c; xa4; x86; x4c; xdf; xe0;
     x6e; xaf; x70; xa0; xec; x0d; x71; x91].
Proof. vm_compute. reflexivity. Qed.

Example aes256_known_answer :
  aes_encrypt_block (map byte_of_nat (seq 0 32))
                    (map (fun i => byte_of_nat (17 * i)) (seq 0 16))
  = [x8e; xa2; xb7; xca; x51; x67; x45; xbf;
     xea; xfc; x49; x90; x4b; x49; x60; x89].
Proof. vm_compute. reflexivity. Qed.

Example stringToHex_khn :
  stringToHex [x6b; x68; x6e] = [x36; x62; x36; x38; x36; x65].
Proof. reflexivity. Qed.

Example base64Encode_hello :
  base64Encode hello = [x61; x47; x56; x73; x62; x47; x38; x3d].
Proof. vm_compute. reflexivity. Qed.

Example prepareData_hello :
  (r <- prepareData zero_pool (c_str hello) zero_hex_key (c_str client1) ;;
   Ok (firstn 44 (fst r)))
  = Ok ([x31; x36; x3a] ++ repeat x30 32 ++ [x3a] ++ client1 ++ [x3a]).
Proof. vm_compute. reflexivity. Qed.

(** * Part 3: the claims of the specification

    One theorem per claim, named with the claim's number.  An amended claim
    comes with the counterexample to the claim as the specification states
    it. *)

(** C1.  AES round trip.  [encryptAES] takes its data as a [const char*]
    with no length: the data of a call is the C string at the pointer,
    [c_string data].  For every such argument, every key of 16, 24 or 32
    bytes and every IV of 16 bytes, [encryptAES] returns a ciphertext (it
    hands the IV back unchanged and leaves the random source alone), and
    [decryptAES] applied to that ciphertext with the same key and IV returns
    the data; for a string [s] passed as [s.c_str()] it returns [s]. *)
Theorem aes_round_trip (rng : RandomPool) (data : cptr) (key iv : bytes) :
  In (length key) [16; 24; 32]%nat -> length iv = 16%nat ->
  exists cipherText,
    encryptAES rng data key (length key) iv = Ok (cipherText, iv, rng)
    /\ decryptAES cipherText key (length key) iv = Ok (c_string data)
    /\ (forall s : bytes, nul_free s -> data = c_str s ->
        decryptAES cipherText key (length key) iv = Ok s).
Proof.
  intros Hk Hiv. apply valid_key_size_iff in Hk.
  exists (aes_cbc_encrypt key iv (c_string data)).
  rewrite encryptAES_with_iv, decryptAES_valid by (try assumption; lia).
  rewrite firstn_all, aes_cbc_decrypt_encrypt.
  split; [reflexivity|]. split; [reflexivity|].
  intros s Hs ->. rewrite c_string_of_nul_free by exact Hs. reflexivity.
Qed.

(** The scenario of the specification: "hello" under the all-zero key and
    IV. *)
Lemma aes_round_trip_witness :
  In (length zero_key) [16; 24; 32]%nat /\ length zero_iv = 16%nat
  /\ exists cipherText,
       encryptAES zero_pool (c_str hello) zero_key (length zero_key) zero_iv
       = Ok (cipherText, zero_iv, zero_pool)
       /\ decryptAES cipherText zero_key (length zero_key) zero_iv = Ok hello.
Proof.
  assert (H1 : In (length zero_key) [16; 24; 32]%nat) by (left; reflexivity).
  assert (H2 : length zero_iv = 16%nat) by reflexivity.
  split; [exact H1 | split; [exact H2|]].
  destruct (aes_round_trip zero_pool (c_str hello) zero_key zero_iv H1 H2)
    as [cipherText [Henc [_ Hdec]]].
  exists cipherText. split; [exact Henc|].
  exact (Hdec hello nul_free_hello eq_refl).
Defined.

(** C2.  Envelope round trip.  [prepareData] takes its data as a
    [const char*]: the data of a call is the C string at the pointer.  For
    every such argument and every hex key that decodes to 16, 24 or 32 bytes,
    [prepareData(data, hexKey, "client1")] returns the text
    <cipherLength>:<ivHex>:client1:<base64Payload> (the decimal length of the
    ciphertext, the 32 hex characters of the IV, the client id, the base64 of
    the ciphertext), and [decryptAES] with the same hex key, no IV and base64
    decoding returns the data from it; for a string [s] passed as
    [s.c_str()] it returns [s]. *)
Theorem envelope_round_trip (rng : RandomPool) (data : cptr)
    (hexKey key : bytes) :
  hexToString hexKey = Ok key -> In (length key) [16; 24; 32]%nat ->
  exists cipherText iv rng',
    let envelope :=
      to_decimal (Z.of_nat (length cipherText)) ++ [DATA_DELIMITER]
      ++ stringToHex iv ++ [DATA_DELIMITER]
      ++ client1 ++ [DATA_DELIMITER] ++ base64Encode cipherText in
    prepareData rng data hexKey (c_str client1) = Ok (envelope, rng')
    /\ length (stringToHex iv) = 32%nat
    /\ decryptAES_hexKey envelope hexKey [] true false = Ok (c_string data)
    /\ (forall s : bytes, nul_free s -> data = c_str s ->
        decryptAES_hexKey envelope hexKey [] true false = Ok s).
Proof.
  intros Hkey Hlen.
  set (iv := fst (generateBlock 16 rng)).
  exists (aes_cbc_encrypt key iv (c_string data)), iv,
         (snd (generateBlock 16 rng)).
  assert (Hiv : length iv = 16%nat) by apply generateBlock_length.
  destruct client1_plain as [Hc1 Hc2].
  assert (Henv : forall c,
             to_decimal (Z.of_nat (length c)) ++ [DATA_DELIMITER]
             ++ stringToHex iv ++ [DATA_DELIMITER]
             ++ client1 ++ [DATA_DELIMITER] ++ base64Encode c
             = envelope_text c iv client1).
  { intros c. unfold envelope_text, client1. rewrite <- app_assoc. reflexivity. }
  cbv zeta. rewrite Henv.
  assert (Hdec : decryptAES_hexKey
                   (envelope_text (aes_cbc_encrypt key iv (c_string data))
                                  iv client1) hexKey [] true false
                 = Ok (c_string data)).
  { apply (decryptAES_hexKey_envelope hexKey key); try assumption.
    apply aes_cbc_decrypt_encrypt. }
  split; [|split; [|split]].
  - rewrite (prepareData_envelope rng _ hexKey key) by assumption.
    rewrite (c_string_of_nul_free client1) by assumption. reflexivity.
  - rewrite stringToHex_length, Hiv. reflexivity.
  - exact Hdec.
  - intros s Hs E. rewrite Hdec, E.
    rewrite c_string_of_nul_free by exact Hs. reflexivity.
Qed.

(** "hello" under the all-zero hex key. *)
Lemma envelope_round_trip_witness :
  hexToString zero_hex_key = Ok zero_key
  /\ In (length zero_key) [16; 24; 32]%nat
  /\ exists cipherText iv rng',
    let envelope :=
      to_decimal (Z.of_nat (length cipherText)) ++ [DATA_DELIMITER]
      ++ stringToHex iv ++ [DATA_DELIMITER]
      ++ client1 ++ [DATA_DELIMITER] ++ base64Encode cipherText in
    prepareData zero_pool (c_str hello) zero_hex_key (c_str client1)
      = Ok (envelope, rng')
    /\ length (stringToHex iv) = 32%nat
    /\ decryptAES_hexKey envelope zero_hex_key [] true false = Ok hello.
Proof.
  assert (H1 : hexToString zero_hex_key = Ok zero_key)
    by exact hexToString_zero_hex_key.
  assert (H2 : In (length zero_key) [16; 24; 32]%nat) by (left; reflexivity).
  split; [exact H1 | split; [exact H2|]].
  destruct (envelope_round_trip zero_pool (c_str hello) zero_hex_key zero_key
              H1 H2) as [cipherText [iv [rng' [Hprep [Hiv [_ Hdec]]]]]].
  exists cipherText, iv, rng'. split; [exact Hprep|]. split; [exact Hiv|].
  exact (Hdec hello nul_free_hello eq_refl).
Defined.




(** C4.  Ciphertext length.  [encryptAES] takes its data as a
    [const char*]: the data of a call is the C string at the pointer, of the
    length [n = strlen(data)].  For every such argument, every valid key and
    16-byte IV, [encryptAES] returns a ciphertext of [(n / 16 + 1) * 16]
    bytes, and that length (the length of a [std::string], a [std::size_t])
    is [expectedAESCipherLength(n)]; a block-aligned input gains a whole
    block, and a 5-byte input gives 16 bytes. *)
Theorem aes_cipher_length (dm : DataModel) (rng : RandomPool)
    (data : cptr) (key iv : bytes) :
  In (length key) [16; 24; 32]%nat -> length iv = 16%nat ->
  exists cipherText,
    encryptAES rng data key (length key) iv = Ok (cipherText, iv, rng)
    /\ Z.of_nat (length cipherText) = (Z.of_nat (strlen data) / 16 + 1) * 16
    /\ (Z.of_nat (length cipherText) <= SIZE_MAX dm ->
        Z.of_nat (length cipherText)
        = expectedAESCipherLength dm (Z.of_nat (strlen data)))
    /\ (Z.of_nat (strlen data) mod 16 = 0 ->
        length cipherText = (strlen data + 16)%nat)
    /\ (strlen data = 5%nat -> length cipherText = 16%nat).
Proof.
  intros Hk Hiv. apply valid_key_size_iff in Hk.
  exists (aes_cbc_encrypt key iv (c_string data)).
  rewrite encryptAES_with_iv by (try assumption; lia).
  rewrite firstn_all. fold (strlen data).
  assert (HL : Z.of_nat (length (aes_cbc_encrypt key iv (c_string data)))
               = (Z.of_nat (strlen data) / 16 + 1) * 16)
    by apply aes_cbc_encrypt_length_Z.
  set (n := Z.of_nat (strlen data)) in *.
  assert (Hn : 0 <= n) by (subst n; lia).
  split; [reflexivity|]. split; [exact HL|]. split; [|split].
  - intros Hrep. rewrite HL in *. symmetry.
    apply expectedAESCipherLength_small; [exact Hn|].
    unfold SIZE_MAX in *. destruct dm; norm_pow2; Z.div_mod_to_equations; lia.
  - intros Hm. apply Nat2Z.inj. rewrite HL, Nat2Z.inj_add. fold n.
    change (Z.of_nat 16) with 16. Z.div_mod_to_equations. lia.
  - intros E. apply Nat2Z.inj. rewrite HL. subst n. rewrite E. reflexivity.
Qed.

(** "hello": 5 bytes in, 16 bytes out. *)
Lemma aes_cipher_length_witness :
  In (length zero_key) [16; 24; 32]%nat /\ length zero_iv = 16%nat
  /\ strlen (c_str hello) = 5%nat
  /\ exists cipherText,
    encryptAES zero_pool (c_str hello) zero_key (length zero_key) zero_iv
    = Ok (cipherText, zero_iv, zero_pool)
    /\ length cipherText = 16%nat
    /\ Z.of_nat (length cipherText) <= SIZE_MAX LP64
    /\ Z.of_nat (length cipherText)
       = expectedAESCipherLength LP64 (Z.of_nat (strlen (c_str hello))).
Proof.
  assert (H1 : In (length zero_key) [16; 24; 32]%nat) by (left; reflexivity).
  assert (H2 : length zero_iv = 16%nat) by reflexivity.
  assert (H3 : strlen (c_str hello) = 5%nat) by reflexivity.
  split; [exact H1 | split; [exact H2 | split; [exact H3|]]].
  destruct (aes_cipher_length LP64 zero_pool (c_str hello) zero_key zero_iv
              H1 H2) as [cipherText [Henc [HL [Hsize [_ H5]]]]].
  exists cipherText. split; [exact Henc|]. split; [exact (H5 H3)|].
  assert (Hrep : Z.of_nat (length cipherText) <= SIZE_MAX LP64)
    by (rewrite (H5 H3); vm_compute; discriminate).
  split; [exact Hrep | exact (Hsize Hrep)].
Defined.

(** C5 (amended).  Base64 length: for every [n >= 0] with [4 * n]
    representable in [std::size_t], [expectedBase64Length(n)] is
    [4 * n / 3 + 3] rounded down to a multiple of 4, and it is the length of
    [base64Encode] of every input of [n] bytes. *)
Theorem expectedBase64Length_exact (dm : DataModel) (n : Z) :
  0 <= n -> 4 * n <= SIZE_MAX dm ->
  expectedBase64Length dm n = 4 * ((4 * n / 3 + 3) / 4)
  /\ (forall binaryData : bytes,
        Z.of_nat (length binaryData) = n ->
        Z.of_nat (length (base64Encode binaryData)) = expectedBase64Length dm n).
Proof.
  intros Hn Hmax. rewrite expectedBase64Length_small by assumption.
  split; [reflexivity|].
  intros binaryData <-. rewrite base64Encode_length_Z.
  symmetry. apply base64_length_formula. lia.
Qed.

(** Five bytes encode to eight characters. *)
Lemma expectedBase64Length_exact_witness :
  0 <= 5 /\ 4 * 5 <= SIZE_MAX LP64
  /\ expectedBase64Length LP64 5 = 4 * ((4 * 5 / 3 + 3) / 4)
  /\ (forall binaryData : bytes,
        Z.of_nat (length binaryData) = 5 ->
        Z.of_nat (length (base64Encode binaryData)) = expectedBase64Length LP64 5).
Proof.
  assert (H1 : 0 <= 5) by lia.
  assert (H2 : 4 * 5 <= SIZE_MAX LP64) by (vm_compute; discriminate).
  split; [exact H1 | split; [exact H2|]].
  exact (expectedBase64Length_exact LP64 5 H1 H2).
Defined.

(** C5 as stated fails where [4 * n] overflows: with a 32-bit
    [std::size_t], [expectedBase64Length(2^30)] is 0, while the formula gives
    1431655768, the length of the encoding of every input of [2^30] bytes.
    The same happens at [2^62] with a 64-bit [std::size_t]. *)
Lemma expectedBase64Length_overflows :
  expectedBase64Length ILP32 (2 ^ 30) = 0
  /\ 4 * ((4 * 2 ^ 30 / 3 + 3) / 4) = 1431655768
  /\ (forall binaryData : bytes,
        Z.of_nat (length binaryData) = 2 ^ 30 ->
        Z.of_nat (length (base64Encode binaryData)) = 1431655768)
  /\ expectedBase64Length LP64 (2 ^ 62) = 0.
Proof.
  split; [reflexivity|]. split; [reflexivity|]. split; [|reflexivity].
  intros binaryData H. rewrite base64Encode_length_Z, H. reflexivity.
Qed.

(** C6 (amended).  RSA block size: for every [keyBits >= 384] whose block
    size fits the [unsigned int] result, [maxRSABlockSize(keyBits)] is
    [(keyBits - 384) / 8 + 7]; [maxRSABlockSize(2048)] is 215; data of 215
    bytes is one block; data of 216 bytes is split in two blocks (215 bytes and
    1 byte), and no split into blocks of at most 215 bytes has fewer. *)
Theorem maxRSABlockSize_formula (dm : DataModel) (keyBits : Z) :
  384 <= keyBits <= SIZE_MAX dm ->
  (keyBits - 384) / 8 + 7 < 2 ^ uint_bits dm ->
  maxRSABlockSize dm keyBits = (keyBits - 384) / 8 + 7
  /\ maxRSABlockSize dm 2048 = 215
  /\ (forall data : bytes,
        length data = 215%nat -> rsa_blocks dm 2048 data = [data])
  /\ (forall data : bytes,
        length data = 216%nat ->
        rsa_blocks dm 2048 data = [firstn 215 data; skipn 215 data]
        /\ forall blocks : list bytes,
             concat blocks = data ->
             Forall (fun b => (length b <= 215)%nat) blocks ->
             (2 <= length blocks)%nat).
Proof.
  intros Hk Hu. split; [apply maxRSABlockSize_in_range; assumption|].
  assert (H2048 : maxRSABlockSize dm 2048 = 215) by (destruct dm; reflexivity).
  split; [exact H2048|]. split.
  - intros data Hl. unfold rsa_blocks. rewrite H2048, Hl. reflexivity.
  - intros data Hl. split.
    + unfold rsa_blocks. rewrite H2048, Hl.
      change (Z.to_nat 215) with 215%nat.
      change (216 <=? 215)%nat with false. cbv iota.
      rewrite <- (firstn_skipn 215 data) at 1.
      rewrite chunks_app by (try lia; rewrite length_firstn; lia).
      f_equal.
      assert (Hs : length (skipn 215 data) = 1%nat) by (rewrite length_skipn; lia).
      destruct (skipn 215 data) as [|x [|y l]]; try discriminate Hs.
      reflexivity.
    + intros blocks Hc Hb.
      pose proof (concat_length_bound byte 215 blocks Hb) as H.
      rewrite Hc, Hl in H. clear - H.
      destruct blocks as [|b1 [|b2 blocks']]; cbn [length] in *; lia.
Qed.

(** The default key length, 2048 bits. *)
Lemma maxRSABlockSize_formula_witness :
  384 <= 2048 <= SIZE_MAX LP64
  /\ (2048 - 384) / 8 + 7 < 2 ^ uint_bits LP64
  /\ maxRSABlockSize LP64 2048 = (2048 - 384) / 8 + 7
  /\ maxRSABlockSize LP64 2048 = 215
  /\ (forall data : bytes,
        length data = 215%nat -> rsa_blocks LP64 2048 data = [data])
  /\ (forall data : bytes,
        length data = 216%nat ->
        rsa_blocks LP64 2048 data = [firstn 215 data; skipn 215 data]
        /\ forall blocks : list bytes,
             concat blocks = data ->
             Forall (fun b => (length b <= 215)%nat) blocks ->
             (2 <= length blocks)%nat).
Proof.
  assert (H1 : 384 <= 2048 <= SIZE_MAX LP64)
    by (split; vm_compute; discriminate).
  assert (H2 : (2048 - 384) / 8 + 7 < 2 ^ uint_bits LP64) by reflexivity.
  split; [exact H1 | split; [exact H2|]].
  exact (maxRSABlockSize_formula LP64 2048 H1 H2).
Defined.

(** C6 as stated fails below 384 bits: [maxRSABlockSize(0)] is 4294967255
    (64-bit [std::size_t]) or 536870871 (32-bit), where [(0 - 384) / 8 + 7] is
    -41. *)
Lemma maxRSABlockSize_wraps_below_384 :
  maxRSABlockSize LP64 0 = 4294967255
  /\ maxRSABlockSize ILP32 0 = 536870871
  /\ (0 - 384) / 8 + 7 = -41
  /\ maxRSABlockSize LP64 0 <> (0 - 384) / 8 + 7.
Proof. repeat split; try reflexivity. discriminate. Qed.

(** C8.  The hex-key overload of [encryptAES] hands [buffer.c_str()] to the
    primitive, so for every buffer its result is the primitive's on the
    longest prefix of the buffer without a zero byte, with the key
    [hexToString(hexKey)] and the key size [hexKey.size() / 2]: the C string
    of the buffer is a prefix of it, has no zero byte, and no prefix without a
    zero byte is longer; a buffer [p ++ 0 :: rest] with [p] free of zero bytes
    is enciphered as [p]. *)
Theorem encryptAES_hexKey_truncates_at_nul (rng : RandomPool)
    (buffer hexKey iv : bytes) :
  encryptAES_hexKey rng buffer hexKey iv
  = (key <- hexToString hexKey ;;
     encryptAES rng (c_str (c_string buffer)) (c_str key)
                (length hexKey / 2)%nat iv)
  /\ (exists rest, buffer = c_string buffer ++ rest)
  /\ nul_free (c_string buffer)
  /\ (forall p rest, buffer = p ++ rest -> nul_free p ->
       (length p <= length (c_string buffer))%nat)
  /\ (forall p rest, buffer = p ++ x00 :: rest -> nul_free p ->
       c_string buffer = p
       /\ encryptAES_hexKey rng buffer hexKey iv
          = encryptAES_hexKey rng p hexKey iv).
Proof.
  assert (Hpre : forall s : bytes,
             c_string (c_str s) = c_string (c_str (c_string s))).
  { intros s. rewrite (c_string_of_nul_free (c_string s)) by apply c_string_nul_free.
    apply c_string_c_str. }
  split; [|split; [|split; [|split]]].
  - unfold encryptAES_hexKey. destruct (hexToString hexKey) as [key|e]; simpl.
    + apply encryptAES_c_string, Hpre.
    + reflexivity.
  - apply c_string_prefix.
  - apply c_string_nul_free.
  - intros p rest. apply c_string_longest.
  - intros p rest -> Hp. split.
    + apply c_string_app_nul, Hp.
    + unfold encryptAES_hexKey. destruct (hexToString hexKey) as [key|e]; simpl.
      * apply encryptAES_c_string. rewrite !c_string_c_str.
        rewrite c_string_app_nul by exact Hp.
        rewrite <- (c_string_c_str p). symmetry. apply c_string_of_nul_free, Hp.
      * reflexivity.
Qed.

(** C9 (amended).  Below 384 bits the subtraction wraps modulo [2^w] ([w]
    the width of [std::size_t]) and the quotient plus 7 is then converted to
    the [unsigned int] result: [maxRSABlockSize(keySize)] is
    [(((keySize - 384) mod 2^w) / 8 + 7) mod 2^32], never negative and never
    an error.  Where [std::size_t] is as wide as [unsigned int] this is
    [((keySize - 384) mod 2^w) / 8 + 7], at least [2^29 - 41]; with a 64-bit
    [std::size_t] it is [2^32 - 41 + keySize / 8] for [keySize < 328] and
    [keySize / 8 - 41] (from 0 to 6) for [328 <= keySize < 384]. *)
Theorem maxRSABlockSize_below_384 (dm : DataModel) (keySize : Z) :
  0 <= keySize < 384 ->
  maxRSABlockSize dm keySize
    = (((keySize - 384) mod 2 ^ size_bits dm) / 8 + 7) mod 2 ^ uint_bits dm
  /\ 0 <= maxRSABlockSize dm keySize
  /\ (size_bits dm = uint_bits dm ->
      maxRSABlockSize dm keySize = ((keySize - 384) mod 2 ^ size_bits dm) / 8 + 7
      /\ 2 ^ 29 - 41 <= maxRSABlockSize dm keySize)
  /\ (dm = LP64 ->
      maxRSABlockSize dm keySize
        = if keySize <? 328 then 2 ^ 32 - 41 + keySize / 8 else keySize / 8 - 41).
Proof.
  intros Hk.
  destruct (maxRSABlockSize_wrapped dm keySize Hk) as [Hin Hw].
  assert (Hq : 0 <= keySize / 8 < 48)
    by (split; [apply Z.div_pos | apply Z.div_lt_upper_bound]; lia).
  unfold maxRSABlockSize, to_uint. rewrite Hw, Hin. unfold wrap, uint_bits.
  split; [reflexivity|].
  split; [apply Z.mod_pos_bound; lia|].
  split.
  - intros E. destruct dm; [|discriminate E]. norm_pow2.
    rewrite Z.mod_small by lia. lia.
  - intros ->. norm_pow2.
    replace (2305843009213693952 - 41 + keySize / 8)
      with (keySize / 8 - 41 + 536870912 * 4294967296) by lia.
    rewrite Z.mod_add by lia.
    destruct (keySize <? 328) eqn:E.
    + apply Z.ltb_lt in E.
      assert (keySize / 8 < 41) by (apply Z.div_lt_upper_bound; lia).
      symmetry. apply Z.mod_unique_pos with (q := -1); lia.
    + apply Z.ltb_ge in E.
      assert (41 <= keySize / 8) by (apply Z.div_le_lower_bound; lia).
      apply Z.mod_small. lia.
Qed.

(** A key size of 328 on a 64-bit target. *)
Lemma maxRSABlockSize_below_384_witness :
  maxRSABlockSize LP64 328
    = (((328 - 384) mod 2 ^ size_bits LP64) / 8 + 7) mod 2 ^ uint_bits LP64
  /\ 0 <= maxRSABlockSize LP64 328
  /\ (size_bits LP64 = uint_bits LP64 ->
      maxRSABlockSize LP64 328 = ((328 - 384) mod 2 ^ size_bits LP64) / 8 + 7
      /\ 2 ^ 29 - 41 <= maxRSABlockSize LP64 328)
  /\ (LP64 = LP64 ->
      maxRSABlockSize LP64 328
        = if 328 <? 328 then 2 ^ 32 - 41 + 328 / 8 else 328 / 8 - 41).
Proof. apply (maxRSABlockSize_below_384 LP64 328). lia. Defined.

(** C9 as stated fails with a 64-bit [std::size_t]: the value computed in
    [std::size_t] does not fit the [unsigned int] result.
    [maxRSABlockSize(328)] is 0 where the claim gives [2^61], and
    [maxRSABlockSize(0)] is 4294967255 where the claim gives
    2305843009213693911. *)
Lemma maxRSABlockSize_truncated_on_LP64 :
  maxRSABlockSize LP64 328 = 0
  /\ ((328 - 384) mod 2 ^ size_bits LP64) / 8 + 7 = 2 ^ 61
  /\ maxRSABlockSize LP64 0 = 4294967255
  /\ ((0 - 384) mod 2 ^ size_bits LP64) / 8 + 7 = 2305843009213693911.
Proof. repeat split; reflexivity. Qed.

(** C10.  For every [n] with [n + 16] representable in [std::size_t],
    [expectedAESCipherLength(n)] is the smallest multiple of 16 strictly
    greater than [n]: it lies in [(n, n + 16]], 16 divides it, and every
    multiple of 16 above [n] is at least as large. *)
Theorem expectedAESCipherLength_next_multiple (dm : DataModel) (n : Z) :
  0 <= n -> n + 16 <= SIZE_MAX dm ->
  n < expectedAESCipherLength dm n <= n + 16
  /\ (16 | expectedAESCipherLength dm n)
  /\ (forall m : Z, (16 | m) -> n < m -> expectedAESCipherLength dm n <= m).
Proof.
  intros Hn Hmax. rewrite expectedAESCipherLength_small by assumption.
  pose proof (Z.div_mod n 16 ltac:(lia)) as Hdm.
  pose proof (Z.mod_pos_bound n 16 ltac:(lia)) as Hr.
  repeat split.
  - lia.
  - lia.
  - exists (n / 16 + 1). reflexivity.
  - intros m [k ->] Hlt. assert (n / 16 < k) by lia. nia.
Qed.

(** [n = 5] on a 64-bit target. *)
Lemma expectedAESCipherLength_next_multiple_witness :
  5 < expectedAESCipherLength LP64 5 <= 5 + 16
  /\ (16 | expectedAESCipherLength LP64 5)
  /\ (forall m : Z, (16 | m) -> 5 < m -> expectedAESCipherLength LP64 5 <= m).
Proof.
  apply (expectedAESCipherLength_next_multiple LP64 5).
  - lia.
  - unfold SIZE_MAX; simpl; lia.
Defined.

(** * Part 4: further properties of the inline size functions

    What the three size functions of the header do on every argument of
    their type: where they overflow, how they grow, which arguments they do
    not tell apart, and how they combine. *)

(** ** [expectedAESCipherLength] (header lines 139-142) *)

(** X1.  For every [std::size_t] argument, overflow included,
    [expectedAESCipherLength(n)] is a multiple of 16 that is at most
    [SIZE_MAX - 15].  It is 0 exactly for the 16 largest arguments
    ([n + 16 > SIZE_MAX], where the multiplication wraps), and these are the
    only arguments for which the result is not greater than [n]. *)
Theorem expectedAESCipherLength_zero_iff_overflow (dm : DataModel) (n : Z) :
  0 <= n <= SIZE_MAX dm ->
  (16 | expectedAESCipherLength dm n)
  /\ 0 <= expectedAESCipherLength dm n <= SIZE_MAX dm - 15
  /\ (expectedAESCipherLength dm n = 0 <-> SIZE_MAX dm < n + 16)
  /\ (n < expectedAESCipherLength dm n <-> n + 16 <= SIZE_MAX dm).
Proof.
  intros Hn.
  assert (H : expectedAESCipherLength dm n
              = if n + 16 <=? SIZE_MAX dm then (n / 16 + 1) * 16 else 0).
  { destruct (n + 16 <=? SIZE_MAX dm) eqn:E.
    - apply Z.leb_le in E. apply expectedAESCipherLength_small; lia.
    - apply Z.leb_gt in E. destruct dm; size_arith. }
  rewrite H. destruct (n + 16 <=? SIZE_MAX dm) eqn:E.
  - apply Z.leb_le in E.
    split; [exists (n / 16 + 1); reflexivity|].
    destruct dm; size_arith.
  - apply Z.leb_gt in E.
    split; [exists 0; reflexivity|].
    destruct dm; size_arith.
Qed.

(** The largest 32-bit size: the predicted cipher length is 0. *)
Lemma expectedAESCipherLength_zero_iff_overflow_witness :
  0 <= 4294967295 <= SIZE_MAX ILP32
  /\ (16 | expectedAESCipherLength ILP32 4294967295)
  /\ 0 <= expectedAESCipherLength ILP32 4294967295 <= SIZE_MAX ILP32 - 15
  /\ (expectedAESCipherLength ILP32 4294967295 = 0
      <-> SIZE_MAX ILP32 < 4294967295 + 16)
  /\ (4294967295 < expectedAESCipherLength ILP32 4294967295
      <-> 4294967295 + 16 <= SIZE_MAX ILP32).
Proof.
  assert (H : 0 <= 4294967295 <= SIZE_MAX ILP32)
    by (split; vm_compute; discriminate).
  split; [exact H|].
  exact (expectedAESCipherLength_zero_iff_overflow ILP32 4294967295 H).
Defined.

(** X2.  Without overflow, two plain sizes get the same predicted cipher
    length exactly when they lie in the same 16-byte block, and the
    prediction never decreases when the plain size grows. *)
Theorem expectedAESCipherLength_same_block (dm : DataModel) (m n : Z) :
  0 <= m -> 0 <= n -> m + 16 <= SIZE_MAX dm -> n + 16 <= SIZE_MAX dm ->
  (expectedAESCipherLength dm m = expectedAESCipherLength dm n
   <-> m / 16 = n / 16)
  /\ (m <= n -> expectedAESCipherLength dm m <= expectedAESCipherLength dm n).
Proof.
  intros Hm Hn Hmm Hnm. rewrite !expectedAESCipherLength_small by assumption.
  split; [split; intros H; lia|].
  intros Hle. pose proof (Z.div_le_mono m n 16 ltac:(lia) Hle). lia.
Qed.

(** Sizes 16 and 31 share a block. *)
Lemma expectedAESCipherLength_same_block_witness :
  (expectedAESCipherLength LP64 16 = expectedAESCipherLength LP64 31
   <-> 16 / 16 = 31 / 16)
  /\ (16 <= 31 -> expectedAESCipherLength LP64 16 <= expectedAESCipherLength LP64 31).
Proof.
  apply (expectedAESCipherLength_same_block LP64 16 31);
    [lia | lia | vm_compute; discriminate | vm_compute; discriminate].
Defined.

(** X3.  Adding [k] whole blocks to the plain size adds [16 * k] to the
    predicted cipher length, as long as nothing overflows. *)
Theorem expectedAESCipherLength_add_blocks (dm : DataModel) (n k : Z) :
  0 <= n -> 0 <= k -> n + 16 * k + 16 <= SIZE_MAX dm ->
  expectedAESCipherLength dm (n + 16 * k)
  = expectedAESCipherLength dm n + 16 * k.
Proof.
  intros Hn Hk Hmax. rewrite !expectedAESCipherLength_small by lia.
  replace (n + 16 * k) with (n + k * 16) by lia.
  rewrite Z.div_add by lia. lia.
Qed.

(** Five bytes and three more blocks. *)
Lemma expectedAESCipherLength_add_blocks_witness :
  expectedAESCipherLength ILP32 (5 + 16 * 3)
  = expectedAESCipherLength ILP32 5 + 16 * 3.
Proof.
  apply (expectedAESCipherLength_add_blocks ILP32 5 3);
    [lia | lia | vm_compute; discriminate].
Defined.

(** X4.  Applying the prediction to its own result [k] more times (the
    length after [k + 1] layers of encryption) adds exactly one block per
    layer: the result is [expectedAESCipherLength(n) + 16 * k]. *)
Theorem expectedAESCipherLength_iterated (dm : DataModel) (n : Z) (k : nat) :
  0 <= n -> n + 16 * (Z.of_nat k + 1) <= SIZE_MAX dm ->
  Nat.iter (S k) (expectedAESCipherLength dm) n
  = expectedAESCipherLength dm n + 16 * Z.of_nat k.
Proof.
  intros Hn. induction k as [|k IH]; intros Hmax.
  - cbn [Nat.iter nat_rect]. change (Z.of_nat 0) with 0. lia.
  - change (Nat.iter (S (S k)) (expectedAESCipherLength dm) n)
      with (expectedAESCipherLength dm
              (Nat.iter (S k) (expectedAESCipherLength dm) n)).
    rewrite IH by lia.
    assert (Hb : n < expectedAESCipherLength dm n <= n + 16
                 /\ expectedAESCipherLength dm n = (n / 16 + 1) * 16).
    { rewrite expectedAESCipherLength_small by lia.
      split; [Z.div_mod_to_equations; lia | reflexivity]. }
    destruct Hb as [Hb He].
    rewrite (expectedAESCipherLength_small dm (_ + _)) by lia.
    rewrite He at 1.
    replace ((n / 16 + 1) * 16 + 16 * Z.of_nat k)
      with (0 + (n / 16 + 1 + Z.of_nat k) * 16) by lia.
    rewrite Z.div_add by lia. rewrite Nat2Z.inj_succ.
    change (0 / 16) with 0. lia.
Qed.

(** Three layers over five bytes: 16, 32, 48. *)
Lemma expectedAESCipherLength_iterated_witness :
  Nat.iter 3 (expectedAESCipherLength LP64) 5
  = expectedAESCipherLength LP64 5 + 16 * Z.of_nat 2.
Proof.
  apply (expectedAESCipherLength_iterated LP64 5 2);
    [lia | vm_compute; discriminate].
Defined.

(** ** [maxRSABlockSize] (header lines 204-207) *)

(** X5.  From 384 bits on, and while the result fits [unsigned int],
    [maxRSABlockSize(keySize)] is the length of the key in whole bytes
    minus 41: at least 7 and always less than the key's length in bytes. *)
Theorem maxRSABlockSize_key_bytes (dm : DataModel) (keySize : Z) :
  384 <= keySize <= SIZE_MAX dm -> keySize / 8 - 41 < 2 ^ uint_bits dm ->
  maxRSABlockSize dm keySize = keySize / 8 - 41
  /\ 7 <= maxRSABlockSize dm keySize < keySize / 8.
Proof.
  intros Hk Hu.
  assert (E : (keySize - 384) / 8 + 7 = keySize / 8 - 41)
    by (Z.div_mod_to_equations; lia).
  rewrite maxRSABlockSize_in_range by (try assumption; rewrite E; exact Hu).
  rewrite E. split; [reflexivity|]. Z.div_mod_to_equations; lia.
Qed.

(** A 4096-bit key: 512 bytes, blocks of 471. *)
Lemma maxRSABlockSize_key_bytes_witness :
  maxRSABlockSize LP64 4096 = 4096 / 8 - 41
  /\ 7 <= maxRSABlockSize LP64 4096 < 4096 / 8.
Proof.
  apply (maxRSABlockSize_key_bytes LP64 4096);
    [split; vm_compute; discriminate | reflexivity].
Defined.

(** X6.  For every [std::size_t] argument, below 384 included,
    [maxRSABlockSize] depends on the key size only through its whole bytes:
    the bits beyond the last multiple of 8 are ignored. *)
Theorem maxRSABlockSize_rounds_to_bytes (dm : DataModel) (keySize : Z) :
  0 <= keySize <= SIZE_MAX dm ->
  maxRSABlockSize dm keySize = maxRSABlockSize dm (8 * (keySize / 8))
  /\ maxRSABlockSize dm keySize = maxRSABlockSize dm (keySize - keySize mod 8).
Proof.
  intros Hk.
  assert (E : keySize - keySize mod 8 = 8 * (keySize / 8))
    by (Z.div_mod_to_equations; lia).
  rewrite E.
  assert (H : maxRSABlockSize dm keySize
              = maxRSABlockSize dm (8 * (keySize / 8))).
  { rewrite !maxRSABlockSize_unfold. do 2 f_equal. f_equal.
    unfold SIZE_MAX in Hk.
    destruct dm; norm_pow2; Z.div_mod_to_equations; lia. }
  split; exact H.
Qed.

(** 2055 bits count as 2048, and 383 bits as 376. *)
Lemma maxRSABlockSize_rounds_to_bytes_witness :
  (maxRSABlockSize ILP32 2055 = maxRSABlockSize ILP32 (8 * (2055 / 8))
   /\ maxRSABlockSize ILP32 2055 = maxRSABlockSize ILP32 (2055 - 2055 mod 8))
  /\ (maxRSABlockSize LP64 383 = maxRSABlockSize LP64 (8 * (383 / 8))
      /\ maxRSABlockSize LP64 383 = maxRSABlockSize LP64 (383 - 383 mod 8)).
Proof.
  split.
  - apply (maxRSABlockSize_rounds_to_bytes ILP32 2055).
    split; vm_compute; discriminate.
  - apply (maxRSABlockSize_rounds_to_bytes LP64 383).
    split; vm_compute; discriminate.
Defined.

(** X7.  For key sizes below [2^32], [maxRSABlockSize] returns 0 on exactly
    the sizes 328 to 335 of a target with a 64-bit [std::size_t]; with a
    32-bit [std::size_t] it never returns 0. *)
Theorem maxRSABlockSize_zero_iff (dm : DataModel) (keySize : Z) :
  0 <= keySize < 2 ^ 32 ->
  maxRSABlockSize dm keySize = 0 <-> dm = LP64 /\ 328 <= keySize < 336.
Proof.
  intros Hk. rewrite maxRSABlockSize_unfold.
  destruct dm.
  - split; [|intros [E _]; discriminate E].
    intros H. exfalso. revert H. norm_pow2. Z.div_mod_to_equations. lia.
  - split.
    + intros H. split; [reflexivity|]. revert H. norm_pow2.
      Z.div_mod_to_equations. lia.
    + intros [_ H]. norm_pow2. Z.div_mod_to_equations. lia.
Qed.

(** 335 bits on a 64-bit target. *)
Lemma maxRSABlockSize_zero_iff_witness :
  maxRSABlockSize LP64 335 = 0 <-> LP64 = LP64 /\ 328 <= 335 < 336.
Proof.
  apply (maxRSABlockSize_zero_iff LP64 335). split; vm_compute; congruence.
Defined.

(** X8.  From 384 bits on, and while the result fits [unsigned int], the
    key sizes with the block size [b] are exactly the eight sizes from
    [8 * (b + 41)] to [8 * (b + 41) + 7]. *)
Theorem maxRSABlockSize_inverse (dm : DataModel) (keySize b : Z) :
  384 <= keySize <= SIZE_MAX dm -> keySize / 8 - 41 < 2 ^ uint_bits dm ->
  maxRSABlockSize dm keySize = b <-> 8 * (b + 41) <= keySize < 8 * (b + 42).
Proof.
  intros Hk Hu.
  assert (E : (keySize - 384) / 8 + 7 = keySize / 8 - 41)
    by (Z.div_mod_to_equations; lia).
  rewrite maxRSABlockSize_in_range by (try assumption; rewrite E; exact Hu).
  rewrite E. split; intros H; Z.div_mod_to_equations; lia.
Qed.

(** Blocks of 87 bytes: keys of 1024 to 1031 bits. *)
Lemma maxRSABlockSize_inverse_witness :
  maxRSABlockSize ILP32 1024 = 87 <-> 8 * (87 + 41) <= 1024 < 8 * (87 + 42).
Proof.
  apply (maxRSABlockSize_inverse ILP32 1024 87);
    [split; vm_compute; discriminate | reflexivity].
Defined.

(** X9.  From 384 bits on, and while the result fits [unsigned int],
    [maxRSABlockSize] never decreases when the key grows; it grows by
    exactly 1 for 8 more bits, so it is strictly larger for a key that is
    at least 8 bits longer. *)
Theorem maxRSABlockSize_monotone (dm : DataModel) (j k : Z) :
  384 <= j -> j <= k -> k <= SIZE_MAX dm -> k / 8 - 41 < 2 ^ uint_bits dm ->
  maxRSABlockSize dm j <= maxRSABlockSize dm k
  /\ (j + 8 <= k -> maxRSABlockSize dm j < maxRSABlockSize dm k)
  /\ (k = j + 8 -> maxRSABlockSize dm k = maxRSABlockSize dm j + 1).
Proof.
  intros Hj Hjk Hk Hu.
  assert (Ek : (k - 384) / 8 + 7 = k / 8 - 41) by (Z.div_mod_to_equations; lia).
  assert (Ej : (j - 384) / 8 + 7 = j / 8 - 41) by (Z.div_mod_to_equations; lia).
  assert (Hd : j / 8 <= k / 8) by (apply Z.div_le_mono; lia).
  rewrite (maxRSABlockSize_in_range dm k) by (try lia; rewrite Ek; exact Hu).
  rewrite (maxRSABlockSize_in_range dm j) by (try lia; rewrite Ej; lia).
  rewrite Ek, Ej. split; [|split; intros H]; Z.div_mod_to_equations; lia.
Qed.

(** Keys of 1024 and 2048 bits. *)
Lemma maxRSABlockSize_monotone_witness :
  maxRSABlockSize LP64 1024 <= maxRSABlockSize LP64 2048
  /\ (1024 + 8 <= 2048 -> maxRSABlockSize LP64 1024 < maxRSABlockSize LP64 2048)
  /\ (2048 = 1024 + 8 ->
      maxRSABlockSize LP64 2048 = maxRSABlockSize LP64 1024 + 1).
Proof.
  apply (maxRSABlockSize_monotone LP64 1024 2048);
    [lia | lia | vm_compute; discriminate | reflexivity].
Defined.

(** ** [expectedBase64Length] (header lines 263-266) *)

(** X10.  For every [std::size_t] argument, overflow included,
    [expectedBase64Length(n)] is a multiple of 4 (its two low bits are
    clear) and at most [SIZE_MAX - 3]. *)
Theorem expectedBase64Length_multiple_of_4 (dm : DataModel) (n : Z) :
  0 <= n <= SIZE_MAX dm ->
  (4 | expectedBase64Length dm n)
  /\ Z.land (expectedBase64Length dm n) 3 = 0
  /\ 0 <= expectedBase64Length dm n <= SIZE_MAX dm - 3.
Proof.
  intros Hn. rewrite expectedBase64Length_unfold.
  set (x := to_size_t dm (to_size_t dm (4 * n) / 3 + 3)).
  pose proof (size_t_range dm (to_size_t dm (4 * n) / 3 + 3)) as Hx.
  fold x in Hx.
  split; [exists (x / 4); lia|]. split.
  - change 3 with (Z.ones 2). rewrite Z.land_ones by lia.
    change (2 ^ 2) with 4. rewrite Z.mul_comm. apply Z.mod_mul. lia.
  - unfold SIZE_MAX in *. destruct dm; norm_pow2; Z.div_mod_to_equations; lia.
Qed.

(** The largest 64-bit size. *)
Lemma expectedBase64Length_multiple_of_4_witness :
  (4 | expectedBase64Length LP64 18446744073709551615)
  /\ Z.land (expectedBase64Length LP64 18446744073709551615) 3 = 0
  /\ 0 <= expectedBase64Length LP64 18446744073709551615 <= SIZE_MAX LP64 - 3.
Proof.
  apply (expectedBase64Length_multiple_of_4 LP64 18446744073709551615).
  split; vm_compute; discriminate.
Defined.

(** X11.  For every [std::size_t] argument, [expectedBase64Length(n)] is
    never more than [4 * ceil(n / 3)], the length of the padded base64 text
    of [n] bytes, and it is equal to it exactly when [4 * n] does not
    overflow [std::size_t]. *)
Theorem expectedBase64Length_exact_iff (dm : DataModel) (n : Z) :
  0 <= n <= SIZE_MAX dm ->
  expectedBase64Length dm n <= 4 * ((n + 2) / 3)
  /\ (expectedBase64Length dm n = 4 * ((n + 2) / 3) <-> 4 * n <= SIZE_MAX dm).
Proof.
  intros Hn. rewrite expectedBase64Length_unfold.
  unfold to_size_t, wrap, SIZE_MAX in *.
  destruct dm; norm_pow2; (split; [|split; intros H]);
    Z.div_mod_to_equations; lia.
Qed.

(** [2^30] bytes with a 32-bit [std::size_t]: the prediction is too small. *)
Lemma expectedBase64Length_exact_iff_witness :
  expectedBase64Length ILP32 1073741824 <= 4 * ((1073741824 + 2) / 3)
  /\ (expectedBase64Length ILP32 1073741824 = 4 * ((1073741824 + 2) / 3)
      <-> 4 * 1073741824 <= SIZE_MAX ILP32).
Proof.
  apply (expectedBase64Length_exact_iff ILP32 1073741824).
  split; vm_compute; discriminate.
Defined.

(** X12.  [expectedBase64Length] has the period [2^(w-2)], [w] the width of
    [std::size_t]: an argument and the argument plus a quarter of the range
    of [std::size_t] get the same result. *)
Theorem expectedBase64Length_periodic (dm : DataModel) (n : Z) :
  0 <= n -> n + 2 ^ (size_bits dm - 2) <= SIZE_MAX dm ->
  expectedBase64Length dm (n + 2 ^ (size_bits dm - 2))
  = expectedBase64Length dm n.
Proof.
  intros Hn Hmax. rewrite !expectedBase64Length_unfold.
  do 2 f_equal. f_equal. f_equal. f_equal.
  unfold to_size_t, wrap.
  replace (4 * (n + 2 ^ (size_bits dm - 2)))
    with (4 * n + 1 * 2 ^ size_bits dm) by (destruct dm; norm_pow2; lia).
  apply Z.mod_add. destruct dm; discriminate.
Qed.

(** Five bytes and a gigabyte more, with a 32-bit [std::size_t]. *)
Lemma expectedBase64Length_periodic_witness :
  expectedBase64Length ILP32 (5 + 2 ^ (size_bits ILP32 - 2))
  = expectedBase64Length ILP32 5.
Proof.
  apply (expectedBase64Length_periodic ILP32 5);
    [lia | vm_compute; discriminate].
Defined.

(** X13.  Without overflow of [4 * n], the prediction is between [4n / 3]
    and [(4n + 8) / 3], is at least [n], is 0 only for [n = 0], and three
    quarters of it is [n] rounded up to a multiple of 3. *)
Theorem expectedBase64Length_bounds (dm : DataModel) (n : Z) :
  0 <= n -> 4 * n <= SIZE_MAX dm ->
  4 * n <= 3 * expectedBase64Length dm n <= 4 * n + 8
  /\ n <= expectedBase64Length dm n
  /\ (expectedBase64Length dm n = 0 <-> n = 0)
  /\ 3 * (expectedBase64Length dm n / 4) = 3 * ((n + 2) / 3).
Proof.
  intros Hn Hmax. rewrite expectedBase64Length_small by assumption.
  rewrite base64_length_formula by assumption.
  split; [|split; [|split; [split; intros H|]]]; Z.div_mod_to_equations; lia.
Qed.

(** Sixteen bytes: 24 characters. *)
Lemma expectedBase64Length_bounds_witness :
  4 * 16 <= 3 * expectedBase64Length LP64 16 <= 4 * 16 + 8
  /\ 16 <= expectedBase64Length LP64 16
  /\ (expectedBase64Length LP64 16 = 0 <-> 16 = 0)
  /\ 3 * (expectedBase64Length LP64 16 / 4) = 3 * ((16 + 2) / 3).
Proof.
  apply (expectedBase64Length_bounds LP64 16);
    [lia | vm_compute; discriminate].
Defined.

(** X14.  Without overflow of [4 * n], the prediction never decreases when
    the input grows; three more bytes add exactly four characters, so it is
    strictly larger for an input that is at least three bytes longer. *)
Theorem expectedBase64Length_monotone (dm : DataModel) (m n : Z) :
  0 <= m -> m <= n -> 4 * n <= SIZE_MAX dm ->
  expectedBase64Length dm m <= expectedBase64Length dm n
  /\ (n = m + 3 -> expectedBase64Length dm n = expectedBase64Length dm m + 4)
  /\ (m + 3 <= n -> expectedBase64Length dm m < expectedBase64Length dm n).
Proof.
  intros Hm Hmn Hmax. rewrite !expectedBase64Length_small by lia.
  rewrite !base64_length_formula by lia.
  split; [|split; intros H]; Z.div_mod_to_equations; lia.
Qed.

(** Five and eight bytes. *)
Lemma expectedBase64Length_monotone_witness :
  expectedBase64Length ILP32 5 <= expectedBase64Length ILP32 8
  /\ (8 = 5 + 3 -> expectedBase64Length ILP32 8 = expectedBase64Length ILP32 5 + 4)
  /\ (5 + 3 <= 8 -> expectedBase64Length ILP32 5 < expectedBase64Length ILP32 8).
Proof.
  apply (expectedBase64Length_monotone ILP32 5 8);
    [lia | lia | vm_compute; discriminate].
Defined.

(** ** The size functions together *)

(** X15.  The base64 length predicted for a predicted cipher length (the
    payload of an envelope for [n] bytes of plain data): while
    [4 * (n + 16)] does not overflow it is [4 * ceil(c / 3)] for the cipher
    length [c], at least 24, and between [4 (n + 1) / 3] and
    [(4 (n + 16) + 8) / 3]. *)
Theorem expectedBase64Length_of_cipher (dm : DataModel) (n : Z) :
  0 <= n -> 4 * (n + 16) <= SIZE_MAX dm ->
  expectedBase64Length dm (expectedAESCipherLength dm n)
  = 4 * ((expectedAESCipherLength dm n + 2) / 3)
  /\ 24 <= expectedBase64Length dm (expectedAESCipherLength dm n)
  /\ 4 * (n + 1)
     <= 3 * expectedBase64Length dm (expectedAESCipherLength dm n)
     <= 4 * (n + 16) + 8.
Proof.
  intros Hn Hmax. rewrite expectedAESCipherLength_small by lia.
  assert (Hc : n < (n / 16 + 1) * 16 <= n + 16) by (Z.div_mod_to_equations; lia).
  rewrite expectedBase64Length_small by lia.
  rewrite base64_length_formula by lia.
  split; [reflexivity|]. split; Z.div_mod_to_equations; lia.
Qed.

(** Five bytes of plain data: 16 bytes of ciphertext, 24 characters. *)
Lemma expectedBase64Length_of_cipher_witness :
  expectedBase64Length LP64 (expectedAESCipherLength LP64 5)
  = 4 * ((expectedAESCipherLength LP64 5 + 2) / 3)
  /\ 24 <= expectedBase64Length LP64 (expectedAESCipherLength LP64 5)
  /\ 4 * (5 + 1)
     <= 3 * expectedBase64Length LP64 (expectedAESCipherLength LP64 5)
     <= 4 * (5 + 16) + 8.
Proof.
  apply (expectedBase64Length_of_cipher LP64 5);
    [lia | vm_compute; discriminate].
Defined.

(** X16.  The three functions give the same results with a 32-bit and a
    64-bit [std::size_t] on the arguments that keep the 32-bit arithmetic
    from overflowing: [n + 16 <= 2^32 - 1] for the cipher length,
    [4 * m <= 2^32 - 1] for the base64 length, and key sizes from 384 to
    [2^32 - 1]. *)
Theorem size_functions_portable (n m k : Z) :
  0 <= n -> n + 16 <= SIZE_MAX ILP32 ->
  0 <= m -> 4 * m <= SIZE_MAX ILP32 ->
  384 <= k <= SIZE_MAX ILP32 ->
  expectedAESCipherLength ILP32 n = expectedAESCipherLength LP64 n
  /\ expectedBase64Length ILP32 m = expectedBase64Length LP64 m
  /\ maxRSABlockSize ILP32 k = maxRSABlockSize LP64 k.
Proof.
  intros Hn Hn' Hm Hm' Hk.
  assert (H32 : SIZE_MAX ILP32 = 4294967295) by reflexivity.
  assert (H64 : SIZE_MAX LP64 = 18446744073709551615) by reflexivity.
  rewrite !expectedAESCipherLength_small by lia.
  rewrite !expectedBase64Length_small by lia.
  assert (Hq : (k - 384) / 8 + 7 < 2 ^ 32)
    by (change (2 ^ 32) with 4294967296; Z.div_mod_to_equations; lia).
  rewrite !maxRSABlockSize_in_range by (try exact Hq; lia).
  repeat split.
Qed.

(** Five bytes, five bytes and a 2048-bit key. *)
Lemma size_functions_portable_witness :
  expectedAESCipherLength ILP32 5 = expectedAESCipherLength LP64 5
  /\ expectedBase64Length ILP32 5 = expectedBase64Length LP64 5
  /\ maxRSABlockSize ILP32 2048 = maxRSABlockSize LP64 2048.
Proof.
  apply (size_functions_portable 5 5 2048);
    [lia | vm_compute; discriminate | lia | vm_compute; discriminate
    | split; vm_compute; discriminate].
Defined.
